(** * The invoice orchestrator of mcp-app-starter

    A shallow embedding of the TypeScript sources of the starter:

    - [backend/src/schemas.ts]: the input contract [CreateInvoiceInput];
    - [backend/src/index.ts]: the [progress] map, the [POST /api/invoices]
      handler with its background routine, and the [GET /api/stream/:opId]
      publisher;
    - [backend/src/mcpClient.ts]: the memoised client promise;
    - [servers/billing/src/index.ts]: the two billing tools and their
      in-memory invoice store.

    Node runs one callback at a time, so the program is modelled as a
    transition function on a [world]: every [event] is one callback run to
    its next [await] (or to its end). *)

From Stdlib Require Import QArith Ascii String.
From stdpp Require Import base option list strings gmap pretty.

Set Warnings "-register-all".
Local Open Scope string_scope.
Local Open Scope list_scope.

(** ** JSON values

    A number is the rational a finite double equals; a string is the
    sequence of its code units; an object is the list of its properties in
    insertion order (its keys are distinct, as in every JavaScript object).
    [Infinity], which [JSON.parse] gives for a literal beyond the doubles
    such as [1e400] and which no JSON text written by [JSON.stringify]
    holds, is not among these values. *)

Inductive json : Type :=
| JNull
| JBool (b : bool)
| JNum (q : Q)
| JStr (s : string)
| JArr (xs : list json)
| JObj (fields : list (string * json)).

Fixpoint assoc (k : string) (fs : list (string * json)) : option json :=
  match fs with
  | [] => None
  | (k', v) :: fs' => if String.eqb k k' then Some v else assoc k fs'
  end.

(** [v.k] for a value [v] that is neither [null] nor [undefined]: a missing
    property, and any property of a primitive or an array that is not its
    own, reads as [undefined] ([None]). *)
Definition prop (v : json) (k : string) : option json :=
  match v with
  | JObj fs => assoc k fs
  | _ => None
  end.

(** The text of a content item, seen through [JSON.parse]: either the
    serialisation of a value ([JSON.stringify v], which [JSON.parse] maps
    back to [v]) or a text on which [JSON.parse] raises a [SyntaxError]
    with the given message. *)
Inductive text : Type :=
| Stringified (v : json)
| Malformed (syntax_error : string).

(** ** What is thrown and caught *)

(** Errors the engine itself raises; their wording belongs to the engine. *)
Inductive engine_error : Type :=
| ReadOfUndefined (property : string)
| ReadOfNull (property : string)
| ParseOfUndefined.

(** A thrown value, as the [catch] clause reads it: [e?.message]. *)
Record thrown : Type := Thrown { message : option string }.

(** What the program takes from its platform: zod's e-mail pattern, the
    tokens [nanoid()] hands out (the [n]-th call returns [nanoid n]), and
    the wording of the engine's own errors. *)
Class Runtime : Type := {
  is_email : string -> bool;
  nanoid : nat -> string;
  engine_message : engine_error -> string
}.

(** ** schemas.ts *)

Record CreateInvoiceInput : Type := MkInput {
  amount : Q;
  currency : string;
  customer_email : string
}.

(** The codes of the issues zod reports, each with the field it is about
    (the empty path is the body itself). *)
Inductive issue_code : Type := invalid_type | too_small | too_big | invalid_string.

Definition issue : Type := (string * issue_code)%type.

Section Schema.
Context `{RT : Runtime}.

(** [amount: z.number().nonnegative()] *)
Definition parse_amount (v : option json) : issue + Q :=
  match v with
  | Some (JNum q) => if Qle_bool 0 q then inr q else inl ("amount", too_small)
  | _ => inl ("amount", invalid_type)
  end.

(** [currency: z.string().length(3)] *)
Definition parse_currency (v : option json) : issue + string :=
  match v with
  | Some (JStr s) =>
      match Nat.compare (String.length s) 3 with
      | Eq => inr s
      | Lt => inl ("currency", too_small)
      | Gt => inl ("currency", too_big)
      end
  | _ => inl ("currency", invalid_type)
  end.

(** [customer_email: z.string().email()] *)
Definition parse_customer_email (v : option json) : issue + string :=
  match v with
  | Some (JStr s) => if is_email s then inr s else inl ("customer_email", invalid_string)
  | _ => inl ("customer_email", invalid_type)
  end.

Definition issues_of {A : Type} (r : issue + A) : list issue :=
  match r with inl i => [i] | inr _ => [] end.

(** [CreateInvoiceInput.safeParse(body)]: [inr data] is
    [{success: true, data}], [inl issues] is [{success: false, error}].
    Keys that the schema does not name are dropped from [data]. *)
Definition safeParse (body : json) : list issue + CreateInvoiceInput :=
  match body with
  | JObj fs =>
      match parse_amount (assoc "amount" fs),
            parse_currency (assoc "currency" fs),
            parse_customer_email (assoc "customer_email" fs) with
      | inr a, inr c, inr m => inr (MkInput a c m)
      | ra, rc, rm => inl (issues_of ra ++ issues_of rc ++ issues_of rm)
      end
  | _ => inl [("", invalid_type)]
  end.
End Schema.

(** ** Tool results on the wire *)

Record content_item : Type := Item { item_type : string; item_text : option text }.

(** A [CallToolResult] as the backend reads it: only [content] is looked
    at. [None] is a missing [content], for which the code tests (lines 44
    and 66) although [CallToolResultSchema] never lets one through: what
    [client.request] resolves with has an array there, possibly empty. *)
Record CallToolResult : Type := ToolResult { content : option (list content_item) }.

Definition text_result (v : json) : CallToolResult :=
  ToolResult (Some [Item "text" (Some (Stringified v))]).

(** ** servers/billing/src/index.ts *)

Module Billing.

Record invoice : Type := Invoice {
  inv_amount : Q;
  inv_currency : string;
  inv_customer_email : string;
  inv_status : string
}.

(** The arguments of [billing.create_invoice], after the tool's input
    schema accepted them. *)
Record create_args : Type := CreateArgs {
  arg_amount : Q;
  arg_currency : string;
  arg_customer_email : string;
  idempotency_key : string
}.

Section Tools.
Context `{RT : Runtime}.

(** The input schema registered with [billing.create_invoice]:
    [amount: z.number().min(0)], [currency: z.string().length(3)],
    [customer_email: z.string().email()], [idempotency_key: z.string()]. *)
Definition create_invoice_schema (a : create_args) : bool :=
  Qle_bool 0 (arg_amount a)
  && Nat.eqb (String.length (arg_currency a)) 3
  && is_email (arg_customer_email a).
End Tools.

Definition created (key : string) (reused : bool) : json :=
  JObj [("invoice_id", JStr key); ("reused", JBool reused)].

(** The handler of [billing.create_invoice]. *)
Definition create_invoice (a : create_args) (invoices : gmap string invoice)
  : CallToolResult * gmap string invoice :=
  match invoices !! idempotency_key a with
  | Some _ => (text_result (created (idempotency_key a) true), invoices)
  | None =>
      (text_result (created (idempotency_key a) false),
       <[idempotency_key a :=
           Invoice (arg_amount a) (arg_currency a) (arg_customer_email a) "draft"]> invoices)
  end.

Definition invoice_json (invoice_id : string) (inv : invoice) : json :=
  JObj [("invoice",
         JObj [("id", JStr invoice_id);
               ("amount", JNum (inv_amount inv));
               ("currency", JStr (inv_currency inv));
               ("customer_email", JStr (inv_customer_email inv));
               ("status", JStr (inv_status inv))])].

(** The handler of [billing.get_invoice]. *)
Definition get_invoice (invoice_id : string) (invoices : gmap string invoice)
  : CallToolResult :=
  match invoices !! invoice_id with
  | None => text_result (JObj [("error", JStr "NOT_FOUND")])
  | Some inv => text_result (invoice_json invoice_id inv)
  end.

End Billing.

(** ** backend/src/index.ts: the operation store *)

(** A value of the [progress] map: [{ done, events, result? }]. *)
Record entry : Type := Entry {
  done : bool;
  events : list string;
  result : option json
}.

(** *** The body of a [try] block

    A computation inside [try] reads and writes the [progress] map and
    either yields a value or throws; what it wrote before it threw stays
    written. *)
Definition Try (A : Type) : Type :=
  gmap string entry -> (thrown + A) * gmap string entry.

Definition ret {A : Type} (a : A) : Try A := fun reg => (inr a, reg).

Definition throw {A : Type} (e : thrown) : Try A := fun reg => (inl e, reg).

Definition bind {A B : Type} (m : Try A) (k : A -> Try B) : Try B :=
  fun reg =>
    match m reg with
    | (inr a, reg') => k a reg'
    | (inl e, reg') => (inl e, reg')
    end.

#[global] Instance Try_ret : MRet Try := @ret.
#[global] Instance Try_bind : MBind Try := fun A B k m => bind m k.

(** [await p]: the value of a fulfilled promise, or its reason thrown. *)
Definition awaited {A : Type} (r : thrown + A) : Try A :=
  match r with
  | inl e => throw e
  | inr a => ret a
  end.

(** [e?.message || "unknown"] *)
Definition message_or_unknown (e : thrown) : string :=
  match message e with
  | Some m => if String.eqb m "" then "unknown" else m
  | None => "unknown"
  end.

(** [{ error: e?.message || "unknown" }] *)
Definition error_payload (e : thrown) : json :=
  JObj [("error", JStr (message_or_unknown e))].

Section Routine.
Context `{RT : Runtime}.

Definition raise {A : Type} (err : engine_error) : Try A :=
  throw (Thrown (Some (engine_message err))).

(** [progress.get(opId)!.events], a [TypeError] when the map has no
    such key. *)
Definition events_of (opId : string) : Try (list string) :=
  fun reg =>
    match reg !! opId with
    | Some p => (inr (events p), reg)
    | None => raise (ReadOfUndefined "events") reg
    end.

(** [progress.get(opId)!.events.push(label)]: the array of the entry is
    extended in place. *)
Definition push (opId label : string) : Try unit :=
  fun reg =>
    match reg !! opId with
    | Some p => (inr tt, <[opId := Entry (done p) (events p ++ [label]) (result p)]> reg)
    | None => raise (ReadOfUndefined "events") reg
    end.

(** [progress.set(opId, p)] *)
Definition set (opId : string) (p : entry) : Try unit :=
  fun reg => (inr tt, <[opId := p]> reg).

(** [JSON.parse(item.text)]; an item without [text] passes [undefined]. *)
Definition JSON_parse (t : option text) : Try json :=
  match t with
  | Some (Stringified v) => ret v
  | Some (Malformed m) => throw (Thrown (Some m))
  | None => raise ParseOfUndefined
  end.

(** [v.k] where [v] came out of [JSON.parse]. *)
Definition read (v : json) (k : string) : Try (option json) :=
  match v with
  | JNull => raise (ReadOfNull k)
  | _ => ret (prop v k)
  end.
End Routine.

(** *** The background routine, one [await] at a time *)

(** Where a routine is suspended. *)
Inductive stage : Type :=
| AwaitClient                        (* await getBillingClient() *)
| AwaitCreate                        (* await client.request(billing.create_invoice) *)
| AwaitGet (invId : option json)     (* await client.request(billing.get_invoice) *)
| Settled.                           (* the async function returned *)

(** One started routine: the closure over [opId] and [parsed.data]. *)
Record task : Type := Task {
  opId : string;
  data : CreateInvoiceInput;
  at_stage : stage
}.

Section Steps.
Context `{RT : Runtime}.

(** Lines 27-40: from [await getBillingClient()] to the first request. *)
Definition resume_client (c : thrown + unit) (t : task) : Try stage :=
  _ ← awaited c;
  push (opId t) "connecting-mcp";;
  mret AwaitCreate.

(** Lines 31-59: from the reply to [billing.create_invoice] to the
    second request. *)
Definition resume_create (r : thrown + CallToolResult) (t : task) : Try stage :=
  createResp ← awaited r;
  push (opId t) "invoice-created";;
  match content createResp with
  | None | Some [] => throw (Thrown (Some "MCP error creating invoice"))
  | Some (c :: _) =>
      createResult ← JSON_parse (item_text c);
      invId ← read createResult "invoice_id";
      mret (AwaitGet invId)
  end.

(** Lines 51-67: from the reply to [billing.get_invoice] to the end of
    the [try] block. *)
Definition resume_get (r : thrown + CallToolResult) (t : task) : Try stage :=
  getResp ← awaited r;
  push (opId t) "invoice-fetched";;
  evs ← events_of (opId t);
  res ← match content getResp with
        | None => mret JNull
        | Some [] => raise (ReadOfUndefined "text")
        | Some (c :: _) => JSON_parse (item_text c)
        end;
  set (opId t) (Entry true evs (Some res));;
  mret Settled.

(** Lines 26 and 68-74: [try { body } catch (e) { ... }]. The [catch]
    clause reads the entry again; without one it throws itself, and the
    rejection of the routine's promise, which nothing handles, ends the
    process ([None]). *)
Definition try_catch (t : task) (body : Try stage) (reg : gmap string entry)
  : option (stage * gmap string entry) :=
  match body reg with
  | (inr st, reg') => Some (st, reg')
  | (inl e, reg') =>
      match reg' !! opId t with
      | Some p =>
          Some (Settled, <[opId t := Entry true (events p) (Some (error_payload e))]> reg')
      | None => None
      end
  end.
End Steps.

(** The [try] bodies a routine ever runs. *)
Inductive routine_body `{RT : Runtime} (t : task) : Try stage -> Prop :=
| body_client (c : thrown + unit) : routine_body t (resume_client c t)
| body_create (r : thrown + CallToolResult) : routine_body t (resume_create r t)
| body_get (r : thrown + CallToolResult) : routine_body t (resume_get r t).

(** ** backend/src/mcpClient.ts *)

Inductive promise : Type :=
| Pending
| Fulfilled                 (* resolve(client) *)
| Rejected (e : thrown).    (* reject(e) *)

(** [getBillingClient()]: the promise of the first call is kept and handed
    to every later caller; [None] is [clientPromise = null]. *)
Definition getBillingClient (clientPromise : option promise) : promise * option promise :=
  match clientPromise with
  | Some p => (p, Some p)
  | None => (Pending, Some Pending)
  end.

(** ** backend/src/index.ts: the two routes *)

(** What is written on an event stream. *)
Inductive sse_message : Type :=
| Ping (t : Z)                                     (* event: ping, data: {t} *)
| Progress (events : list string) (done : bool)    (* event: progress *)
| Result (payload : option json).                   (* event: result, data: p.result *)

(** One open [GET /api/stream/:opId] request. *)
Record subscription : Type := Sub {
  target : string;           (* req.params.opId *)
  timer : bool;              (* the interval is set *)
  ended : bool;              (* res.end() was called *)
  written : list sse_message    (* what res.write() sent, oldest first *)
}.

Inductive response : Type :=
| Status202 (opId : string)            (* res.status(202).json({ opId }) *)
| Status400 (error : list issue).      (* res.status(400).json({ error }) *)

(** The state of the two processes: the backend's [progress] map, the
    number of tokens [nanoid] has handed out, [clientPromise], the started
    routines and the open streams, and the billing server's [invoices]. *)
Record world : Type := World {
  progress : gmap string entry;
  minted : nat;
  clientPromise : option promise;
  tasks : list task;
  streams : list subscription;
  invoices : gmap string Billing.invoice
}.

Definition boot : world := World ∅ 0 None [] [] ∅.

Definition with_routine (reg : gmap string entry) (ts : list task) (w : world) : world :=
  World reg (minted w) (clientPromise w) ts (streams w) (invoices w).

Definition with_streams (ss : list subscription) (w : world) : world :=
  World (progress w) (minted w) (clientPromise w) (tasks w) ss (invoices w).

Definition with_invoices (inv : gmap string Billing.invoice) (w : world) : world :=
  World (progress w) (minted w) (clientPromise w) (tasks w) (streams w) inv.

(** What happens next: a request arrives, a promise settles, a timer fires
    or a caller goes away. *)
Inductive event : Type :=
| Post (body : json)                             (* POST /api/invoices *)
| Connect (failure : option thrown)              (* client.connect(transport) settles *)
| Resume (n : nat)                               (* routine n wakes from await getBillingClient() *)
| Reply (n : nat) (r : thrown + CallToolResult)  (* the request routine n awaits settles *)
| Serve (n : nat)                                (* the billing server answers that request *)
| Stream (opId : string) (now : Z)               (* GET /api/stream/:opId, at time now *)
| Tick (k : nat)                                 (* the interval of stream k fires *)
| Close (k : nat).                               (* the caller of stream k disconnects *)

Section Backend.
Context `{RT : Runtime}.

(** Lines 15-78. The routine runs up to its first [await] before the
    response is written. *)
Definition post_invoices (body : json) (w : world) : response * world :=
  match safeParse body with
  | inl error => (Status400 error, w)
  | inr parsed =>
      let opId := nanoid (minted w) in
      (Status202 opId,
       World (<[opId := Entry false ["received"] None]> (progress w))
             (S (minted w))
             (getBillingClient (clientPromise w)).2
             (tasks w ++ [Task opId parsed AwaitClient])
             (streams w)
             (invoices w))
  end.

(** The promise made in [getBillingClient] settles, once. *)
Definition connect (failure : option thrown) (w : world) : world :=
  match clientPromise w with
  | Some Pending =>
      World (progress w) (minted w)
            (Some (match failure with None => Fulfilled | Some e => Rejected e end))
            (tasks w) (streams w) (invoices w)
  | _ => w
  end.

(** Routine [n] runs [body] inside its [try] and is suspended again. *)
Definition advance (n : nat) (t : task) (body : Try stage) (w : world) : option world :=
  '(st, reg) ← try_catch t body (progress w);
  Some (with_routine reg (<[n := Task (opId t) (data t) st]> (tasks w)) w).

Definition resume (n : nat) (w : world) : option world :=
  match tasks w !! n with
  | Some t =>
      match at_stage t, clientPromise w with
      | AwaitClient, Some Fulfilled => advance n t (resume_client (inr tt) t) w
      | AwaitClient, Some (Rejected e) => advance n t (resume_client (inl e) t) w
      | _, _ => Some w
      end
  | None => Some w
  end.

Definition reply (n : nat) (r : thrown + CallToolResult) (w : world) : option world :=
  match tasks w !! n with
  | Some t =>
      match at_stage t with
      | AwaitCreate => advance n t (resume_create r t) w
      | AwaitGet _ => advance n t (resume_get r t) w
      | _ => Some w
      end
  | None => Some w
  end.

(** The arguments of the first call: [{...parsed.data, idempotency_key}]
    with [idempotency_key = opId]. *)
Definition create_call (t : task) : Billing.create_args :=
  Billing.CreateArgs (amount (data t)) (currency (data t)) (customer_email (data t)) (opId t).

(** The billing server runs the tool routine [n] is waiting for and its
    result is delivered. A call whose arguments the tool's input schema
    refuses never reaches a handler; what comes back then is the SDK's
    and arrives as a [Reply]. *)
Definition serve (n : nat) (w : world) : option world :=
  match tasks w !! n with
  | Some t =>
      match at_stage t with
      | AwaitCreate =>
          if Billing.create_invoice_schema (create_call t) then
            let '(r, inv) := Billing.create_invoice (create_call t) (invoices w) in
            advance n t (resume_create (inr r) t) (with_invoices inv w)
          else Some w
      | AwaitGet (Some (JStr invoice_id)) =>
          advance n t (resume_get (inr (Billing.get_invoice invoice_id (invoices w))) t) w
      | _ => Some w
      end
  | None => Some w
  end.

(** Lines 81-104, up to [setInterval]: the headers, then the ping. *)
Definition get_stream (opId : string) (now : Z) (w : world) : world :=
  with_streams (streams w ++ [Sub opId true false [Ping now]]) w.

(** Lines 90-101: the interval callback. *)
Definition on_interval (reg : gmap string entry) (s : subscription) : subscription :=
  match reg !! target s with
  | None => s
  | Some p =>
      let sent := written s ++ [Progress (events p) (done p)] in
      if done p
      then Sub (target s) false true (sent ++ [Result (result p)])
      else Sub (target s) (timer s) (ended s) sent
  end.

(** A cleared interval never fires. *)
Definition tick (k : nat) (w : world) : world :=
  match streams w !! k with
  | Some s =>
      if timer s then with_streams (<[k := on_interval (progress w) s]> (streams w)) w
      else w
  | None => w
  end.

(** Line 103: [req.on("close", () => clearInterval(interval))]. *)
Definition close (k : nat) (w : world) : world :=
  match streams w !! k with
  | Some s => with_streams (<[k := Sub (target s) false (ended s) (written s)]> (streams w)) w
  | None => w
  end.

(** One callback; [None] when the process dies of an unhandled rejection. *)
Definition step (ev : event) (w : world) : option world :=
  match ev with
  | Post body => Some (post_invoices body w).2
  | Connect failure => Some (connect failure w)
  | Resume n => resume n w
  | Reply n r => reply n r w
  | Serve n => serve n w
  | Stream opId now => Some (get_stream opId now w)
  | Tick k => Some (tick k w)
  | Close k => Some (close k w)
  end.

Fixpoint run (evs : list event) (w : world) : option world :=
  match evs with
  | [] => Some w
  | ev :: evs' => w' ← step ev w; run evs' w'
  end.
End Backend.




(** ** Invariants of the reachable worlds *)

(** Every started routine finds its entry in the store. *)
Definition registered (w : world) : Prop :=
  ∀ n t, tasks w !! n = Some t -> is_Some (progress w !! opId t).

(** An entry is done exactly when it has a result. *)
Definition results_when_done (w : world) : Prop :=
  ∀ id p, progress w !! id = Some p -> (done p = true <-> is_Some (result p)).



(** The [n]-th routine works for the [n]-th minted id, every key of the
    store was minted, and an entry that is done belongs to a routine that
    has returned. *)
Definition accounted `{RT : Runtime} (w : world) : Prop :=
  length (tasks w) = minted w
  ∧ (∀ n t, tasks w !! n = Some t -> opId t = nanoid n)
  ∧ (∀ n t p, tasks w !! n = Some t -> progress w !! opId t = Some p ->
              done p = true -> at_stage t = Settled)
  ∧ (∀ id, is_Some (progress w !! id) -> ∃ n, n < minted w ∧ id = nanoid n).

(** How one callback changes the store, the routines and the id count:
    not at all, by a submission, or by one routine moving on. *)
Inductive store_change `{RT : Runtime} (w w' : world) : Prop :=
| unchanged :
    progress w' = progress w -> tasks w' = tasks w -> minted w' = minted w ->
    store_change w w'
| submitted (parsed : CreateInvoiceInput) :
    progress w' = <[nanoid (minted w) := Entry false ["received"] None]> (progress w) ->
    tasks w' = tasks w ++ [Task (nanoid (minted w)) parsed AwaitClient] ->
    minted w' = S (minted w) ->
    store_change w w'
| advanced (n : nat) (t : task) (p p' : entry) (st : stage) :
    tasks w !! n = Some t -> at_stage t ≠ Settled ->
    progress w !! opId t = Some p ->
    progress w' = <[opId t := p']> (progress w) ->
    tasks w' = <[n := Task (opId t) (data t) st]> (tasks w) ->
    minted w' = minted w ->
    (∃ more, events p' = events p ++ more) ->
    (st ≠ Settled ∧ done p' = done p ∧ result p' = result p)
    ∨ (st = Settled ∧ done p' = true ∧ is_Some (result p')) ->
    store_change w w'.

(** *** Streams *)

Definition is_progress (m : sse_message) : bool :=
  match m with Progress _ _ => true | _ => false end.

Definition is_result (m : sse_message) : bool :=
  match m with Result _ => true | _ => false end.

(** What a stream has written: the ping, then progress messages, and,
    exactly when it was ended, one result after them; an ended stream has
    no timer. *)
Definition well_streamed (s : subscription) : Prop :=
  ∃ t body,
    Forall (fun m => is_progress m = true) body
    ∧ if ended s
      then timer s = false ∧ ∃ payload, written s = Ping t :: body ++ [Result payload]
      else written s = Ping t :: body.

(** How one callback changes the streams. *)
Inductive stream_change (w w' : world) : Prop :=
| streams_kept :
    streams w' = streams w -> stream_change w w'
| stream_opened (opId : string) (now : Z) :
    streams w' = streams w ++ [Sub opId true false [Ping now]] -> stream_change w w'
| interval_fired (k : nat) (s : subscription) :
    streams w !! k = Some s -> timer s = true ->
    streams w' = <[k := on_interval (progress w) s]> (streams w) -> stream_change w w'
| caller_gone (k : nat) (s : subscription) :
    streams w !! k = Some s ->
    streams w' = <[k := Sub (target s) false (ended s) (written s)]> (streams w) ->
    stream_change w w'.

(** Only progress and result messages are on every stream. *)
Definition only_progress_and_results (w : world) : Prop :=
  ∀ k s m, streams w !! k = Some s -> m ∈ written s ->
           is_progress m || is_result m = true.

(** ** A platform to run the model on

    [node] recognises addresses of the shape [local@label.label...] with
    non-empty parts, numbers the tokens [op1], [op2], ..., and words the
    engine's errors as V8 does. *)

Fixpoint split_on (sep : ascii) (s : string) : list string :=
  match s with
  | EmptyString => [EmptyString]
  | String c s' =>
      if Ascii.eqb c sep then EmptyString :: split_on sep s'
      else match split_on sep s' with
           | [] => [String c EmptyString]
           | part :: parts => String c part :: parts
           end
  end.

Definition non_empty (s : string) : bool := negb (String.eqb s "").

Definition simple_email (s : string) : bool :=
  match split_on "@" s with
  | [local; domain] =>
      non_empty local
      && Nat.leb 2 (length (split_on "." domain))
      && forallb non_empty (split_on "." domain)
  | _ => false
  end.

Definition token (n : nat) : string := "op" +:+ pretty (S n).

Definition double_quote : string := String "034" "".

Definition v8_message (err : engine_error) : string :=
  match err with
  | ReadOfUndefined p => "Cannot read properties of undefined (reading '" +:+ p +:+ "')"
  | ReadOfNull p => "Cannot read properties of null (reading '" +:+ p +:+ "')"
  | ParseOfUndefined => double_quote +:+ "undefined" +:+ double_quote +:+ " is not valid JSON"
  end.

Definition node : Runtime :=
  {| is_email := simple_email; nanoid := token; engine_message := v8_message |}.

(** The world [node] is in after a schedule, started from [boot]. *)
Definition node_world (evs : list event) : world :=
  default boot (@run node evs boot).

(** ** Requests and schedules of the scenarios *)

(** The request [{amount: q, currency: "USD", customer_email: "a@b.com"}]. *)
Definition usd_invoice (q : Q) : json :=
  JObj [("amount", JNum q); ("currency", JStr "USD"); ("customer_email", JStr "a@b.com")].

Definition scenario_body : json := usd_invoice 100.

(** Submit, subscribe to the id handed out, and let the interval fire. *)
Definition scenario_start `{RT : Runtime} (now : Z) : list event :=
  [Post scenario_body; Stream (nanoid 0) now; Tick 0].

(** The connection is made, the routine wakes up, the billing server
    answers its two calls, and the interval fires again. *)
Definition scenario_script : list event :=
  [Connect None; Resume 0; Serve 0; Serve 0; Tick 0].

(** The scenario up to the second answer of the billing server, with the
    stream opened at the start and its interval not yet fired. *)
Definition scenario_unobserved : list event :=
  [Post scenario_body; Stream "op1" 0; Connect None; Resume 0; Serve 0; Serve 0].

(** The whole scenario on [node], observed at time 0. *)
Definition scenario_on_node : list event :=
  @scenario_start node 0 ++ scenario_script.

(** A submission whose connection to the billing server fails. *)
Definition refused_connection : list event :=
  [Post scenario_body; Connect (Some (Thrown (Some "spawn node ENOENT")))].

(** A second submission, a tick and a late, failed reply for the first
    routine. *)
Definition later_traffic : list event :=
  [Post scenario_body; Tick 0; Reply 0 (inl (Thrown (Some "late")));
   Connect None; Resume 0; Resume 1; Serve 1].

Definition scenario_log : list string :=
  ["received"; "connecting-mcp"; "invoice-created"; "invoice-fetched"].


(** [{invoice: {id, amount: 100, currency: "USD", customer_email:
    "a@b.com", status: "draft"}}] *)
Definition scenario_invoice (id : string) : json :=
  Billing.invoice_json id (Billing.Invoice 100 "USD" "a@b.com" "draft").

(** ** Further parts of the model *)

(** *** The billing server over many calls *)




(** *** What the input contract accepts *)

Definition accepts `{RT : Runtime} (d : CreateInvoiceInput) : Prop :=
  (0 <= amount d)%Q
  ∧ String.length (currency d) = 3
  ∧ is_email (customer_email d) = true.

(** *** The moves of a routine *)

(** The routine a callback belongs to. *)
Definition routine_of (ev : event) : option nat :=
  match ev with
  | Resume n | Reply n _ | Serve n => Some n
  | _ => None
  end.

(** One wake-up of a routine, as a change of its stage and of its entry:
    the awaited promise was rejected (nothing is logged, the [catch]
    clause finalises); or the step is logged and the routine waits for
    the next reply; or the step is logged and what follows throws; or the
    last step is logged and the entry is finalised with what the reply
    held (which the [catch] clause does too when reading the reply
    throws). *)
Inductive routine_move : stage -> entry -> stage -> entry -> Prop :=
| move_rejected (st : stage) (p : entry) (e : thrown) :
    routine_move st p Settled (Entry true (events p) (Some (error_payload e)))
| move_connected (p : entry) :
    routine_move AwaitClient p AwaitCreate
      (Entry (done p) (events p ++ ["connecting-mcp"]) (result p))
| move_created (p : entry) (invId : option json) :
    routine_move AwaitCreate p (AwaitGet invId)
      (Entry (done p) (events p ++ ["invoice-created"]) (result p))
| move_create_failed (p : entry) (e : thrown) :
    routine_move AwaitCreate p Settled
      (Entry true (events p ++ ["invoice-created"]) (Some (error_payload e)))
| move_fetched (invId : option json) (p : entry) (v : json) :
    routine_move (AwaitGet invId) p Settled
      (Entry true (events p ++ ["invoice-fetched"]) (Some v)).

(** The [try] body a routine runs when it is woken at a stage. *)
Inductive runs_at `{RT : Runtime} (t : task) : stage -> Try stage -> Prop :=
| at_client (c : thrown + unit) : runs_at t AwaitClient (resume_client c t)
| at_create (r : thrown + CallToolResult) : runs_at t AwaitCreate (resume_create r t)
| at_get (invId : option json) (r : thrown + CallToolResult) :
    runs_at t (AwaitGet invId) (resume_get r t).

(** How the callback [ev] changes the store and the routines. *)
Inductive store_move `{RT : Runtime} (ev : event) (w w' : world) : Prop :=
| move_none :
    progress w' = progress w -> tasks w' = tasks w -> minted w' = minted w ->
    store_move ev w w'
| move_submit (body : json) (parsed : CreateInvoiceInput) :
    ev = Post body -> safeParse body = inr parsed ->
    progress w' = <[nanoid (minted w) := Entry false ["received"] None]> (progress w) ->
    tasks w' = tasks w ++ [Task (nanoid (minted w)) parsed AwaitClient] ->
    minted w' = S (minted w) ->
    store_move ev w w'
| move_routine (n : nat) (t : task) (p p' : entry) (st : stage) :
    routine_of ev = Some n ->
    tasks w !! n = Some t ->
    at_stage t ≠ Settled ->
    progress w !! opId t = Some p ->
    routine_move (at_stage t) p st p' ->
    (st = AwaitCreate -> clientPromise w = Some Fulfilled) ->
    progress w' = <[opId t := p']> (progress w) ->
    tasks w' = <[n := Task (opId t) (data t) st]> (tasks w) ->
    minted w' = minted w ->
    store_move ev w w'.

(** What the entry of a routine looks like at each stage: the log is the
    script so far; a routine that returned left a result, and a log
    shorter than the script only with an error payload. *)
Definition entry_at (st : stage) (p : entry) : Prop :=
  match st with
  | AwaitClient => p = Entry false ["received"] None
  | AwaitCreate => p = Entry false ["received"; "connecting-mcp"] None
  | AwaitGet _ => p = Entry false ["received"; "connecting-mcp"; "invoice-created"] None
  | Settled =>
      done p = true
      ∧ ((∃ v, result p = Some v ∧ events p = scenario_log)
         ∨ (∃ e n, result p = Some (error_payload e) ∧ 1 <= n <= 3
                   ∧ events p = take n scenario_log))
  end.

(** Every routine's entry is as its stage says. *)
Definition scripted (w : world) : Prop :=
  ∀ n t p, tasks w !! n = Some t -> progress w !! opId t = Some p ->
           entry_at (at_stage t) p.

(** The data of every routine passed the input contract. *)
Definition validated `{RT : Runtime} (w : world) : Prop :=
  ∀ n t, tasks w !! n = Some t -> accepts (data t).


(** A routine that has sent a call did so over a made connection. *)
Definition called (st : stage) : Prop :=
  st = AwaitCreate ∨ ∃ invId, st = AwaitGet invId.

Definition calls_need_connection (w : world) : Prop :=
  (∀ n t, tasks w !! n = Some t -> called (at_stage t) ->
          clientPromise w = Some Fulfilled)
  ∧ (∀ id, is_Some (invoices w !! id) -> clientPromise w = Some Fulfilled).

(** The logs a stream has shown are in growing order, and none is ahead
    of the log in the store. *)
Definition feed_grows (w : world) : Prop :=
  ∀ k s, streams w !! k = Some s ->
    (∀ i j a da b db, i <= j ->
       written s !! i = Some (Progress a da) -> written s !! j = Some (Progress b db) ->
       a `prefix_of` b)
    ∧ (∀ i a da, written s !! i = Some (Progress a da) ->
         ∃ q, progress w !! target s = Some q ∧ a `prefix_of` events q).

(** Every stream is [well_streamed]. *)
Definition all_well_streamed (w : world) : Prop :=
  ∀ k s, streams w !! k = Some s -> well_streamed s.

(** A stream that was ended wrote, last, the log and the result its
    operation has in the store. *)
Definition delivered (w : world) : Prop :=
  ∀ k s, streams w !! k = Some s -> ended s = true ->
    ∃ p before,
      progress w !! target s = Some p
      ∧ done p = true
      ∧ Forall (fun m => is_result m = false) before
      ∧ written s = before ++ [Progress (events p) true; Result (result p)].

(** *** frontend/src/App.tsx: the listeners of the event source *)

(** The state the page keeps of one submission: [events], [result], and
    whether [es.close()] was called. *)
Record page : Type := Page {
  shown_events : list string;
  shown_result : json;
  source_closed : bool
}.

(** [onSubmit]: [setEvents([]); setResult(null)], and a new [EventSource]. *)
Definition submitted_page : page := Page [] JNull false.

(** One message arrives. ["progress"] sets the events; ["result"] parses
    the data, sets the result and closes the source; a result whose data
    is the text [undefined] makes [JSON.parse] throw before anything is
    set; ["ping"] has no listener; a closed source delivers nothing. *)
Definition receive (a : page) (m : sse_message) : page :=
  if source_closed a then a
  else match m with
       | Ping _ => a
       | Progress events _ => Page events (shown_result a) false
       | Result (Some payload) => Page (shown_events a) payload true
       | Result None => a
       end.

Definition watch (messages : list sse_message) (a : page) : page :=
  foldl receive a messages.

(** *** A schedule on [node] *)

(** The scenario request is accepted, the connection is made and the
    routine has sent its first call. *)
Definition connected_and_woken : list event :=
  [Post scenario_body; Connect None; Resume 0].

(** * Properties *)

(** ** The billing tools *)



(** ** Submission *)

Section Submission.
Context `{RT : Runtime}.

Lemma negative_amount_fails (fs : list (string * json)) (q : Q) :
  assoc "amount" fs = Some (JNum q) -> (q < 0)%Q ->
  ∃ error, safeParse (JObj fs) = inl error ∧ ("amount", too_small) ∈ error.
Proof.
  intros Ha Hq. unfold safeParse. rewrite Ha. unfold parse_amount.
  destruct (Qle_bool 0 q) eqn:E.
  - apply Qle_bool_iff in E. exfalso. apply (Qlt_not_le _ _ Hq E).
  - eexists. split; [reflexivity|]. simpl. apply list_elem_of_here.
Qed.

Lemma wrong_length_currency_fails (fs : list (string * json)) (s : string) :
  assoc "currency" fs = Some (JStr s) -> String.length s ≠ 3 ->
  ∃ error, safeParse (JObj fs) = inl error.
Proof.
  intros Hc Hlen. unfold safeParse. rewrite Hc. unfold parse_currency.
  destruct (Nat.compare_spec (String.length s) 3) as [E|E|E]; [contradiction| |];
    destruct (parse_amount _), (parse_customer_email _); eauto.
Qed.

Lemma malformed_email_fails (fs : list (string * json)) (s : string) :
  assoc "customer_email" fs = Some (JStr s) -> is_email s = false ->
  ∃ error, safeParse (JObj fs) = inl error.
Proof.
  intros Hm He. unfold safeParse. rewrite Hm. unfold parse_customer_email. rewrite He.
  destruct (parse_amount _), (parse_currency _); eauto.
Qed.

(** C6. A request that fails [CreateInvoiceInput] is answered 400 with
    the issues found, and nothing else happens: the operation store, the
    count of minted ids, the started routines, all of the state, is what
    it was before the request. *)
Theorem invalid_request_changes_nothing (body : json) (error : list issue) (w : world) :
  safeParse body = inl error ->
  post_invoices body w = (Status400 error, w)
  ∧ progress (post_invoices body w).2 = progress w
  ∧ minted (post_invoices body w).2 = minted w
  ∧ tasks (post_invoices body w).2 = tasks w.
Proof.
  intros Hbad. unfold post_invoices. rewrite Hbad. auto.
Qed.

(** C1. A request that passes [CreateInvoiceInput] is answered 202 with
    the id minted for it; when the handler returns, the store maps that
    id to a pending entry ([done = false], events ["received"], no
    result) and the routine started for it has not gone past its first
    [await]: no tool call has been issued yet. *)
Theorem submit_returns_pending_id (body : json) (parsed : CreateInvoiceInput) (w : world) :
  safeParse body = inr parsed ->
  let opId := nanoid (minted w) in
  let after := (post_invoices body w).2 in
  (post_invoices body w).1 = Status202 opId
  ∧ progress after !! opId = Some (Entry false ["received"] None)
  ∧ minted after = S (minted w)
  ∧ tasks after = tasks w ++ [Task opId parsed AwaitClient].
Proof.
  intros Hok. unfold post_invoices. rewrite Hok. simpl.
  rewrite lookup_insert_eq. auto.
Qed.

Lemma safeParse_usd_invoice (q : Q) :
  is_email "a@b.com" = true ->
  safeParse (usd_invoice q) =
    if Qle_bool 0 q then inr (MkInput q "USD" "a@b.com") else inl [("amount", too_small)].
Proof.
  intros He. unfold safeParse, usd_invoice. simpl. rewrite He.
  destruct (Qle_bool 0 q); reflexivity.
Qed.

(** C10. The amount zero is accepted: [{amount: 0, currency: "USD",
    customer_email: "a@b.com"}] is answered 202 with a fresh id and a
    pending entry is stored for it; with the other two fields as they
    are, a request is refused exactly when its amount is below zero. *)
Theorem zero_amount_accepted (w : world) :
  is_email "a@b.com" = true ->
  (post_invoices (usd_invoice 0) w).1 = Status202 (nanoid (minted w))
  ∧ progress (post_invoices (usd_invoice 0) w).2 !! nanoid (minted w)
    = Some (Entry false ["received"] None)
  ∧ ∀ q : Q,
      (∃ error, (post_invoices (usd_invoice q) w).1 = Status400 error) ↔ (q < 0)%Q.
Proof.
  intros He. split; [|split].
  - unfold post_invoices. rewrite (safeParse_usd_invoice 0 He). reflexivity.
  - unfold post_invoices. rewrite (safeParse_usd_invoice 0 He). simpl.
    apply lookup_insert_eq.
  - intros q. unfold post_invoices. rewrite (safeParse_usd_invoice q He).
    destruct (Qle_bool 0 q) eqn:E; simpl.
    + apply Qle_bool_iff in E. split.
      * intros [error Herr]. discriminate.
      * intros Hq. exfalso. apply (Qlt_not_le _ _ Hq E).
    + split; [|eauto]. intros _.
      apply Qnot_le_lt. intros Hle. apply Qle_bool_iff in Hle. congruence.
Qed.
End Submission.

(** ** The background routine *)

Section RoutineFacts.
Context `{RT : Runtime}.

Ltac unfold_try :=
  unfold mbind, Try_bind, bind, mret, Try_ret, ret, throw, awaited, raise,
    push, set, events_of, JSON_parse, read in *.

(** What a [try] body does to the store: it rewrites the entry of its
    own operation and nothing else; either it leaves [done] and [result]
    alone and does not finish, or it finishes with [done] and a result. *)
Lemma body_effect (t : task) (body : Try stage) (reg reg' : gmap string entry)
    (p : entry) (out : thrown + stage) :
  routine_body t body ->
  reg !! opId t = Some p ->
  body reg = (out, reg') ->
  ∃ p', reg' = <[opId t := p']> reg
        ∧ (∃ more, events p' = events p ++ more)
        ∧ ((out ≠ inr Settled ∧ done p' = done p ∧ result p' = result p)
           ∨ (out = inr Settled ∧ done p' = true ∧ is_Some (result p'))).
Proof.
  intros Hbody Hp Hrun.
  assert (Hnil : ∃ more, events p = events p ++ more) by (exists []; by rewrite app_nil_r).
  assert (Hsame : reg = <[opId t := p]> reg) by (symmetry; by apply insert_id).
  destruct Hbody as [c | r | r].
  - unfold resume_client in Hrun. unfold_try.
    destruct c as [e | []]; simpl in Hrun.
    + inversion Hrun; subst. exists p. split; [done|]. split; [done|]. left. done.
    + rewrite Hp in Hrun. inversion Hrun; subst.
      eexists. split; [reflexivity|]. split; [simpl; eauto|]. left. done.
  - unfold resume_create in Hrun. unfold_try.
    destruct r as [e | resp]; simpl in Hrun.
    + inversion Hrun; subst. exists p. split; [done|]. split; [done|]. left. done.
    + rewrite Hp in Hrun.
      destruct (content resp) as [[| c cs] |]; simpl in Hrun.
      * inversion Hrun; subst. eexists. split; [reflexivity|]. split; [simpl; eauto|]. left. done.
      * destruct (item_text c) as [[v | m] |]; simpl in Hrun.
        -- destruct v; inversion Hrun; subst;
             (eexists; split; [reflexivity|]; split; [simpl; eauto|]; left; done).
        -- inversion Hrun; subst. eexists. split; [reflexivity|]. split; [simpl; eauto|]. left. done.
        -- inversion Hrun; subst. eexists. split; [reflexivity|]. split; [simpl; eauto|]. left. done.
      * inversion Hrun; subst. eexists. split; [reflexivity|]. split; [simpl; eauto|]. left. done.
  - unfold resume_get in Hrun. unfold_try.
    destruct r as [e | resp]; simpl in Hrun.
    + inversion Hrun; subst. exists p. split; [done|]. split; [done|]. left. done.
    + rewrite Hp in Hrun. rewrite lookup_insert_eq in Hrun.
      destruct (content resp) as [[| c cs] |]; simpl in Hrun.
      * inversion Hrun; subst. eexists. split; [reflexivity|]. split; [simpl; eauto|]. left. done.
      * destruct (item_text c) as [[v | m] |]; simpl in Hrun.
        -- inversion Hrun; subst. rewrite insert_insert_eq.
           eexists. split; [reflexivity|]. split; [simpl; eauto|]. right. simpl. eauto.
        -- inversion Hrun; subst. eexists. split; [reflexivity|]. split; [simpl; eauto|]. left. done.
        -- inversion Hrun; subst. eexists. split; [reflexivity|]. split; [simpl; eauto|]. left. done.
      * inversion Hrun; subst. rewrite insert_insert_eq.
        eexists. split; [reflexivity|]. split; [simpl; eauto|]. right. simpl. eauto.
Qed.
End RoutineFacts.

Section StoreSteps.
Context `{RT : Runtime}.

Lemma try_catch_effect (t : task) (body : Try stage) (reg : gmap string entry) (p : entry) :
  routine_body t body ->
  reg !! opId t = Some p ->
  ∃ st p', try_catch t body reg = Some (st, <[opId t := p']> reg)
           ∧ (∃ more, events p' = events p ++ more)
           ∧ ((st ≠ Settled ∧ done p' = done p ∧ result p' = result p)
              ∨ (st = Settled ∧ done p' = true ∧ is_Some (result p'))).
Proof.
  intros Hbody Hp. unfold try_catch.
  destruct (body reg) as [out reg'] eqn:Hrun.
  destruct (body_effect t body reg reg' p out Hbody Hp Hrun) as (p' & -> & Hlog & Hcases).
  destruct out as [e | st].
  - rewrite lookup_insert_eq, insert_insert_eq.
    eexists Settled, _. split; [reflexivity|]. split; [exact Hlog|]. right. simpl. eauto.
  - exists st, p'. split; [reflexivity|]. split; [exact Hlog|].
    destruct Hcases as [(Hst & ? & ?) | (Hst & ? & ?)].
    + left. repeat split; try done. intros ->. by apply Hst.
    + right. repeat split; try done. congruence.
Qed.

Lemma advance_change (n : nat) (t : task) (body : Try stage) (w0 w : world) :
  routine_body t body ->
  progress w = progress w0 -> tasks w = tasks w0 -> minted w = minted w0 ->
  tasks w0 !! n = Some t -> at_stage t ≠ Settled ->
  registered w0 ->
  ∃ w', advance n t body w = Some w' ∧ store_change w0 w'
        ∧ streams w' = streams w ∧ clientPromise w' = clientPromise w.
Proof.
  intros Hbody Hprog Htasks Hminted Ht Hst Hreg.
  destruct (Hreg n t Ht) as [p Hp].
  destruct (try_catch_effect t body (progress w) p Hbody) as (st & p' & Htc & Hlog & Hcases).
  { by rewrite Hprog. }
  unfold advance. rewrite Htc. simpl. eexists. split; [reflexivity|].
  split; [|done].
  eapply (advanced w0 _ n t p p' st); simpl; try done; congruence.
Qed.

(** No callback ends the process in a world where every routine has its
    entry, and the store changes in one of the three ways. *)
Lemma step_change (ev : event) (w : world) :
  registered w ->
  ∃ w', step ev w = Some w' ∧ store_change w w'.
Proof.
  intros Hreg. destruct ev as [body | failure | n | n r | n | id now | k | k]; simpl.
  - eexists. split; [reflexivity|]. unfold post_invoices.
    destruct (safeParse body) as [error | parsed]; simpl.
    + by apply unchanged.
    + by apply (submitted _ _ parsed).
  - eexists. split; [reflexivity|]. unfold connect.
    destruct (clientPromise w) as [[| |]|]; by apply unchanged.
  - unfold resume. destruct (tasks w !! n) as [t|] eqn:Ht.
    2:{ eexists; split; [reflexivity|]; by apply unchanged. }
    destruct (at_stage t) eqn:Hst;
      try (eexists; split; [reflexivity|]; by apply unchanged).
    destruct (clientPromise w) as [[| | e]|];
      try (eexists; split; [reflexivity|]; by apply unchanged).
    + destruct (advance_change n t (resume_client (inr ()) t) w w) as (w' & ? & ? & _);
        try done; [constructor | congruence | eauto].
    + destruct (advance_change n t (resume_client (inl e) t) w w) as (w' & ? & ? & _);
        try done; [constructor | congruence | eauto].
  - unfold reply. destruct (tasks w !! n) as [t|] eqn:Ht.
    2:{ eexists; split; [reflexivity|]; by apply unchanged. }
    destruct (at_stage t) eqn:Hst;
      try (eexists; split; [reflexivity|]; by apply unchanged).
    + destruct (advance_change n t (resume_create r t) w w) as (w' & ? & ? & _);
        try done; [constructor | congruence | eauto].
    + destruct (advance_change n t (resume_get r t) w w) as (w' & ? & ? & _);
        try done; [constructor | congruence | eauto].
  - unfold serve. destruct (tasks w !! n) as [t|] eqn:Ht.
    2:{ eexists; split; [reflexivity|]; by apply unchanged. }
    destruct (at_stage t) as [| | invId |] eqn:Hst;
      try (eexists; split; [reflexivity|]; by apply unchanged).
    + destruct (Billing.create_invoice_schema (create_call t));
        [|eexists; split; [reflexivity|]; by apply unchanged].
      destruct (Billing.create_invoice (create_call t) (invoices w)) as [r inv].
      destruct (advance_change n t (resume_create (inr r) t) w (with_invoices inv w))
        as (w' & ? & ? & _); try done; [constructor | congruence | eauto].
    + destruct invId as [[]|];
        try (eexists; split; [reflexivity|]; by apply unchanged).
      destruct (advance_change n t
                  (resume_get (inr (Billing.get_invoice s (invoices w))) t) w w)
        as (w' & ? & ? & _); try done; [constructor | congruence | eauto].
  - eexists. split; [reflexivity|]. by apply unchanged.
  - eexists. split; [reflexivity|]. unfold tick.
    destruct (streams w !! k) as [s|]; [destruct (timer s)|]; by apply unchanged.
  - eexists. split; [reflexivity|]. unfold close.
    destruct (streams w !! k) as [s|]; by apply unchanged.
Qed.
End StoreSteps.

(** ** Invariants along every run *)

Section Invariants.
Context `{RT : Runtime}.

Lemma store_change_registered (w w' : world) :
  registered w -> store_change w w' -> registered w'.
Proof.
  intros Hreg [Hp Ht Hm | parsed Hp Ht Hm | n t p p' st Hn Hst Hlook Hp Ht Hm Hlog Hcases] m u Hu.
  - rewrite Hp. apply (Hreg m). by rewrite <- Ht.
  - rewrite Hp. rewrite Ht in Hu. apply lookup_app_Some in Hu as [Hu | [_ Hu]].
    + apply lookup_insert_is_Some'. right. by apply (Hreg m).
    + apply list_lookup_singleton_Some in Hu as [_ <-]. simpl.
      rewrite lookup_insert_eq. eauto.
  - rewrite Hp. rewrite Ht in Hu. apply lookup_insert_is_Some'.
    apply list_lookup_insert_Some in Hu as [(-> & <- & _) | [_ Hu]].
    + by left.
    + right. by apply (Hreg m).
Qed.

Lemma store_change_results (w w' : world) :
  results_when_done w -> store_change w w' -> results_when_done w'.
Proof.
  intros Hres [Hp Ht Hm | parsed Hp Ht Hm | n t p p' st Hn Hst Hlook Hp Ht Hm Hlog Hcases] id q Hq;
    rewrite Hp in Hq.
  - by apply (Hres id).
  - apply lookup_insert_Some in Hq as [[_ <-] | [_ Hq]].
    + simpl. split; [done|]. intros [? ?]. done.
    + by apply (Hres id).
  - apply lookup_insert_Some in Hq as [[_ <-] | [_ Hq]]; [|by apply (Hres id)].
    destruct Hcases as [(_ & Hd & Hr) | (_ & Hd & Hr)].
    + rewrite Hd, Hr. by apply (Hres (opId t)).
    + by rewrite Hd.
Qed.

Lemma boot_registered : registered boot.
Proof. intros n t Ht. simpl in Ht. by rewrite lookup_nil in Ht. Qed.

Lemma boot_results : results_when_done boot.
Proof. intros id p Hp. simpl in Hp. by rewrite lookup_empty in Hp. Qed.

Lemma run_app (evs1 evs2 : list event) (w : world) :
  run (evs1 ++ evs2) w = w' ← run evs1 w; run evs2 w'.
Proof.
  revert w. induction evs1 as [| ev evs1 IH]; intros w; simpl; [done|].
  destruct (step ev w) as [w'|]; simpl; [apply IH | done].
Qed.

Lemma run_registered (evs : list event) (w w' : world) :
  registered w -> results_when_done w -> run evs w = Some w' ->
  registered w' ∧ results_when_done w'.
Proof.
  revert w. induction evs as [| ev evs IH]; intros w Hreg Hres Hrun; simpl in Hrun.
  - by inversion Hrun; subst.
  - destruct (step_change ev w Hreg) as (w1 & Hstep & Hchange).
    rewrite Hstep in Hrun. simpl in Hrun.
    apply (IH w1); eauto using store_change_registered, store_change_results.
Qed.

(** The process survives every schedule. *)
Lemma run_total (evs : list event) (w : world) :
  registered w -> is_Some (run evs w).
Proof.
  revert w. induction evs as [| ev evs IH]; intros w Hreg; simpl; [eauto|].
  destruct (step_change ev w Hreg) as (w1 & Hstep & Hchange).
  rewrite Hstep. simpl. apply IH. eauto using store_change_registered.
Qed.

Section FreshIds.
Hypothesis nanoid_fresh : Inj (=) (=) nanoid.

Lemma store_change_accounted (w w' : world) :
  accounted w -> store_change w w' -> accounted w'.
Proof.
  intros (Hlen & Hid & Hdone & Hkeys)
    [Hp Ht Hm | parsed Hp Ht Hm | n t p p' st Hn Hst Hlook Hp Ht Hm Hlog Hcases].
  - unfold accounted. rewrite Hp, Ht, Hm. done.
  - unfold accounted. rewrite Hp, Ht, Hm. repeat split.
    + rewrite length_app. simpl. lia.
    + intros m u Hu. apply lookup_app_Some in Hu as [Hu | [Hge Hu]]; [eauto|].
      apply list_lookup_singleton_Some in Hu as [Hz <-]. simpl.
      f_equal. lia.
    + intros m u q Hu Hq Hd. apply lookup_app_Some in Hu as [Hu | [Hge Hu]].
      * apply lookup_insert_Some in Hq as [[Heq <-] | [_ Hq]]; [done|]. eauto.
      * apply list_lookup_singleton_Some in Hu as [_ <-]. simpl in Hq.
        rewrite lookup_insert_eq in Hq. by inversion Hq; subst.
    + intros id Hsome. apply lookup_insert_is_Some' in Hsome as [<- | Hsome].
      * exists (minted w). split; [lia | done].
      * destruct (Hkeys id Hsome) as (m & Hlt & ->). exists m. split; [lia | done].
  - unfold accounted. rewrite Hp, Ht, Hm. repeat split.
    + by rewrite length_insert.
    + intros m u Hu. apply list_lookup_insert_Some in Hu as [(-> & <- & _) | [_ Hu]];
        [simpl|]; eauto.
    + intros m u q Hu Hq Hd.
      apply list_lookup_insert_Some in Hu as [(-> & <- & _) | [Hne Hu]].
      * simpl in *. rewrite lookup_insert_eq in Hq. inversion Hq; subst q.
        destruct Hcases as [(_ & Hd' & _) | (-> & _)]; [|done].
        exfalso. apply Hst. apply (Hdone m t p); congruence.
      * rewrite lookup_insert_ne in Hq; [eauto|].
        rewrite (Hid n t Hn), (Hid m u Hu). intros Heq. by apply nanoid_fresh in Heq.
    + intros id Hsome. apply lookup_insert_is_Some' in Hsome as [<- | Hsome]; eauto.
Qed.

(** One callback never touches an entry that is done, and never
    removes an entry. *)
Lemma store_change_keeps_done (w w' : world) (id : string) (p : entry) :
  accounted w -> store_change w w' -> progress w !! id = Some p ->
  ∃ p', progress w' !! id = Some p' ∧ (done p = true -> p' = p).
Proof.
  intros (Hlen & Hid & Hdone & Hkeys)
    [Hp Ht Hm | parsed Hp Ht Hm | n t q q' st Hn Hst Hlook Hp Ht Hm Hlog Hcases] Hlookup;
    rewrite Hp.
  - eauto.
  - destruct (Hkeys id) as (m & Hlt & ->); [eauto|].
    rewrite lookup_insert_ne; [eauto|].
    intros Heq. apply nanoid_fresh in Heq. lia.
  - destruct (decide (opId t = id)) as [<- | Hne].
    + rewrite lookup_insert_eq. eexists. split; [done|]. intros Hd.
      exfalso. apply Hst. by apply (Hdone n t p).
    + rewrite lookup_insert_ne; eauto.
Qed.

Lemma boot_accounted : accounted boot.
Proof.
  repeat split.
  - intros n t Ht. simpl in Ht. by rewrite lookup_nil in Ht.
  - intros n t p Ht. simpl in Ht. by rewrite lookup_nil in Ht.
  - intros id [p Hp]. simpl in Hp. by rewrite lookup_empty in Hp.
Qed.

Lemma run_accounted (evs : list event) (w w' : world) :
  registered w -> accounted w -> run evs w = Some w' -> accounted w'.
Proof.
  revert w. induction evs as [| ev evs IH]; intros w Hreg Hacc Hrun; simpl in Hrun.
  - by inversion Hrun; subst.
  - destruct (step_change ev w Hreg) as (w1 & Hstep & Hchange).
    rewrite Hstep in Hrun. simpl in Hrun.
    apply (IH w1); eauto using store_change_registered, store_change_accounted.
Qed.

Lemma run_keeps_done (evs : list event) (w w' : world) (id : string) (p : entry) :
  registered w -> accounted w -> run evs w = Some w' -> progress w !! id = Some p ->
  ∃ p', progress w' !! id = Some p' ∧ (done p = true -> p' = p).
Proof.
  revert w p. induction evs as [| ev evs IH]; intros w p Hreg Hacc Hrun Hp; simpl in Hrun.
  - inversion Hrun; subst. eauto.
  - destruct (step_change ev w Hreg) as (w1 & Hstep & Hchange).
    rewrite Hstep in Hrun. simpl in Hrun.
    destruct (store_change_keeps_done w w1 id p Hacc Hchange Hp) as (p1 & Hp1 & Hkeep).
    destruct (IH w1 p1) as (p' & Hp' & Hkeep');
      eauto using store_change_registered, store_change_accounted.
    exists p'. split; [done|]. intros Hd.
    rewrite <- (Hkeep Hd). apply Hkeep'. by rewrite (Hkeep Hd).
Qed.
End FreshIds.
End Invariants.

(** ** Errors and finalisation *)

Section Finalisation.
Context `{RT : Runtime}.

(** A failed connection is thrown at [await getBillingClient()]. *)
Lemma connection_failure_throws (e : thrown) (t : task) (reg : gmap string entry) :
  resume_client (inl e) t reg = (inl e, reg).
Proof. reflexivity. Qed.

(** A rejected request is thrown at its [await]. *)
Lemma request_failure_throws (e : thrown) (t : task) (reg : gmap string entry) :
  resume_create (inl e) t reg = (inl e, reg) ∧ resume_get (inl e) t reg = (inl e, reg).
Proof. split; reflexivity. Qed.

(** A reply to the first call without content, or whose text is not
    JSON, throws once ["invoice-created"] has been logged. *)
Lemma malformed_reply_throws (t : task) (reg : gmap string entry) (p : entry) (m : string) :
  reg !! opId t = Some p ->
  let logged := <[opId t := Entry (done p) (events p ++ ["invoice-created"]) (result p)]> reg in
  resume_create (inr (ToolResult None)) t reg
    = (inl (Thrown (Some "MCP error creating invoice")), logged)
  ∧ resume_create (inr (ToolResult (Some []))) t reg
    = (inl (Thrown (Some "MCP error creating invoice")), logged)
  ∧ resume_create (inr (ToolResult (Some [Item "text" (Some (Malformed m))]))) t reg
    = (inl (Thrown (Some m)), logged).
Proof.
  intros Hp logged. unfold resume_create, mbind, Try_bind, bind, awaited, ret, push.
  simpl. rewrite Hp. done.
Qed.






(** C8. Along every run, with [nanoid] never repeating a token: an entry
    is done exactly when it has a result; an entry is never removed; and
    an entry that is done is the same entry ever after, so [done] never
    goes back to [false] and neither the log nor the result of a
    finalised operation is written again. *)
Theorem operation_finalized_once
    (evs1 evs2 : list event) (w1 w2 : world) (id : string) (p : entry) :
  Inj (=) (=) nanoid ->
  run evs1 boot = Some w1 ->
  run evs2 w1 = Some w2 ->
  progress w1 !! id = Some p ->
  (done p = true <-> is_Some (result p))
  ∧ ∃ p', progress w2 !! id = Some p'
          ∧ (done p' = true <-> is_Some (result p'))
          ∧ (done p = true -> p' = p).
Proof.
  intros Hfresh Hrun1 Hrun2 Hp.
  destruct (run_registered evs1 boot w1 boot_registered boot_results Hrun1) as [Hreg1 Hres1].
  destruct (run_registered evs2 w1 w2 Hreg1 Hres1 Hrun2) as [_ Hres2].
  pose proof (run_accounted Hfresh evs1 boot w1 boot_registered (boot_accounted) Hrun1) as Hacc1.
  destruct (run_keeps_done Hfresh evs2 w1 w2 id p Hreg1 Hacc1 Hrun2 Hp) as (p' & Hp' & Hkeep).
  split; [by apply (Hres1 id)|].
  exists p'. repeat split; try done; by apply (Hres2 id).
Qed.
End Finalisation.

(** ** The progress publisher *)

Section Publisher.
Context `{RT : Runtime}.

Lemma advance_streams (n : nat) (t : task) (body : Try stage) (w w' : world) :
  advance n t body w = Some w' -> streams w' = streams w.
Proof.
  unfold advance. destruct (try_catch t body (progress w)) as [[st reg]|]; simpl; [|done].
  intros Hw. by inversion Hw; subst.
Qed.

Lemma step_stream_change (ev : event) (w w' : world) :
  step ev w = Some w' -> stream_change w w'.
Proof.
  destruct ev as [body | failure | n | n r | n | id now | k | k]; simpl; intros Hstep.
  - inversion Hstep; subst. apply streams_kept. unfold post_invoices.
    by destruct (safeParse body).
  - inversion Hstep; subst. apply streams_kept. unfold connect.
    by destruct (clientPromise w) as [[| |]|].
  - apply streams_kept. unfold resume in Hstep.
    destruct (tasks w !! n) as [t|]; [|by inversion Hstep].
    destruct (at_stage t); try (by inversion Hstep).
    destruct (clientPromise w) as [[| |]|]; try (by inversion Hstep);
      eauto using advance_streams.
  - apply streams_kept. unfold reply in Hstep.
    destruct (tasks w !! n) as [t|]; [|by inversion Hstep].
    destruct (at_stage t); try (by inversion Hstep); eauto using advance_streams.
  - apply streams_kept. unfold serve in Hstep.
    destruct (tasks w !! n) as [t|]; [|by inversion Hstep].
    destruct (at_stage t) as [| | invId |]; try (by inversion Hstep).
    + destruct (Billing.create_invoice_schema (create_call t)); [|by inversion Hstep].
      destruct (Billing.create_invoice (create_call t) (invoices w)) as [r inv].
      by apply advance_streams in Hstep.
    + destruct invId as [[]|]; try (by inversion Hstep); eauto using advance_streams.
  - inversion Hstep; subst. by apply (stream_opened _ _ id now).
  - inversion Hstep; subst. unfold tick.
    destruct (streams w !! k) as [s|] eqn:Hs; [|by apply streams_kept].
    destruct (timer s) eqn:Ht; [|by apply streams_kept].
    by apply (interval_fired _ _ k s).
  - inversion Hstep; subst. unfold close.
    destruct (streams w !! k) as [s|] eqn:Hs; [|by apply streams_kept].
    by apply (caller_gone _ _ k s).
Qed.

Lemma on_interval_well_streamed (reg : gmap string entry) (s : subscription) :
  timer s = true -> well_streamed s -> well_streamed (on_interval reg s).
Proof.
  intros Htimer (t & body & Hbody & Hshape). unfold on_interval.
  destruct (reg !! target s) as [p|]; [|by exists t, body].
  destruct (ended s) eqn:Hended.
  { destruct Hshape as [Hoff _]. congruence. }
  assert (Hbody' : Forall (fun m => is_progress m = true) (body ++ [Progress (events p) (done p)])).
  { apply Forall_app. split; [done|]. by apply Forall_singleton. }
  exists t, (body ++ [Progress (events p) (done p)]). split; [done|].
  destruct (done p); simpl; rewrite ?Hended, Hshape; [|done].
  split; [done|]. by exists (result p).
Qed.

Lemma stream_change_well_streamed (w w' : world) :
  (∀ k s, streams w !! k = Some s -> well_streamed s) ->
  stream_change w w' ->
  ∀ k s, streams w' !! k = Some s -> well_streamed s.
Proof.
  intros Hall [Hsame | id now Hnew | j u Hj Htimer Hnew | j u Hj Hnew] k s Hs;
    rewrite ?Hsame, ?Hnew in Hs.
  - eauto.
  - apply lookup_app_Some in Hs as [Hs | [_ Hs]]; [eauto|].
    apply list_lookup_singleton_Some in Hs as [_ <-].
    exists now, []. split; [constructor | done].
  - apply list_lookup_insert_Some in Hs as [(-> & <- & _) | [_ Hs]]; [|eauto].
    apply on_interval_well_streamed; eauto.
  - apply list_lookup_insert_Some in Hs as [(-> & <- & _) | [_ Hs]]; [|eauto].
    destruct (Hall k u Hj) as (t & body & Hbody & Hshape).
    exists t, body. split; [done|]. simpl.
    destruct (ended u); [|done]. by destruct Hshape.
Qed.

Lemma run_well_streamed (evs : list event) (w w' : world) :
  (∀ k s, streams w !! k = Some s -> well_streamed s) ->
  run evs w = Some w' ->
  ∀ k s, streams w' !! k = Some s -> well_streamed s.
Proof.
  revert w. induction evs as [| ev evs IH]; intros w Hall Hrun; simpl in Hrun.
  - by inversion Hrun; subst.
  - destruct (step ev w) as [w1|] eqn:Hstep; [|done]. simpl in Hrun.
    apply (IH w1); [|done].
    eauto using stream_change_well_streamed, step_stream_change.
Qed.

(** A stream without a timer is never written again. *)
Lemma stream_change_frozen (w w' : world) (k : nat) (s : subscription) :
  stream_change w w' -> streams w !! k = Some s -> timer s = false ->
  streams w' !! k = Some s.
Proof.
  intros [Hsame | id now Hnew | j u Hj Htimer Hnew | j u Hj Hnew] Hs Hoff;
    rewrite ?Hsame, ?Hnew.
  - done.
  - apply lookup_app_Some. by left.
  - rewrite list_lookup_insert_ne; [done|]. intros ->. congruence.
  - destruct (decide (j = k)) as [-> | Hne]; [|by rewrite list_lookup_insert_ne].
    rewrite list_lookup_insert_eq; [|by eapply lookup_lt_Some].
    assert (u = s) as -> by congruence.
    destruct s; simpl in *; by subst.
Qed.

Lemma run_frozen (evs : list event) (w w' : world) (k : nat) (s : subscription) :
  run evs w = Some w' -> streams w !! k = Some s -> timer s = false ->
  streams w' !! k = Some s.
Proof.
  revert w. induction evs as [| ev evs IH]; intros w Hrun Hs Hoff; simpl in Hrun.
  - by inversion Hrun; subst.
  - destruct (step ev w) as [w1|] eqn:Hstep; [|done]. simpl in Hrun.
    apply (IH w1); eauto using stream_change_frozen, step_stream_change.
Qed.

Lemma boot_well_streamed (k : nat) (s : subscription) :
  streams boot !! k = Some s -> well_streamed s.
Proof. intros Hs. simpl in Hs. by rewrite lookup_nil in Hs. Qed.
End Publisher.

Section Logs.
Context `{RT : Runtime}.




End Logs.

Section PublisherClaims.
Context `{RT : Runtime}.

Lemma progress_is_no_result (body : list sse_message) :
  Forall (fun m => is_progress m = true) body ->
  Forall (fun m => is_result m = false) body.
Proof. intros Hbody. eapply Forall_impl; [exact Hbody|]. by intros []. Qed.

(** C4. On every stream of every run: the tick that finds its operation
    done writes the progress message and then the result message with
    the operation's result, clears the timer and ends the response; a
    stream was ended exactly when it has written a result message, which
    is then its last message and the only result message on it; and an
    ended stream is never written again. *)
Theorem terminal_result_once (evs : list event) (w : world) (k : nat) (s : subscription) :
  run evs boot = Some w ->
  streams w !! k = Some s ->
  (∀ p, timer s = true -> progress w !! target s = Some p -> done p = true ->
        ∃ v, result p = Some v
             ∧ streams (tick k w) !! k
               = Some (Sub (target s) false true
                           (written s ++ [Progress (events p) true; Result (Some v)])))
  ∧ (if ended s
     then timer s = false
          ∧ ∃ before payload,
              written s = before ++ [Result payload]
              ∧ Forall (fun m => is_result m = false) before
     else Forall (fun m => is_result m = false) (written s))
  ∧ (ended s = true ->
     ∀ evs' w', run evs' w = Some w' -> streams w' !! k = Some s).
Proof.
  intros Hrun Hs.
  destruct (run_registered evs boot w boot_registered boot_results Hrun) as [_ Hres].
  pose proof (run_well_streamed evs boot w boot_well_streamed Hrun k s Hs)
    as (t & body & Hbody & Hshape).
  split; [|split].
  - intros p Htimer Hp Hdone.
    destruct (proj1 (Hres _ _ Hp) Hdone) as [v Hv]. exists v. split; [done|].
    unfold tick. rewrite Hs, Htimer. simpl.
    rewrite list_lookup_insert_eq; [|by eapply lookup_lt_Some].
    unfold on_interval. rewrite Hp, Hdone, Hv. by rewrite <- app_assoc.
  - destruct (ended s).
    + destruct Hshape as (Hoff & payload & ->). split; [done|].
      exists (Ping t :: body), payload. split; [done|].
      constructor; [done|]. by apply progress_is_no_result.
    + rewrite Hshape. constructor; [done|]. by apply progress_is_no_result.
  - intros Hended evs' w' Hrun'. rewrite Hended in Hshape.
    destruct Hshape as (Hoff & _). by apply (run_frozen evs' w w').
Qed.

(** C9, as the program has it. The first message of every stream is the
    ping written when the stream is opened; every message after it is a
    progress message or a result message. *)
Theorem stream_is_ping_then_progress_and_result
    (evs : list event) (w : world) (k : nat) (s : subscription) :
  run evs boot = Some w ->
  streams w !! k = Some s ->
  ∃ t rest,
    written s = Ping t :: rest
    ∧ Forall (fun m => is_progress m || is_result m = true) rest.
Proof.
  intros Hrun Hs.
  pose proof (run_well_streamed evs boot w boot_well_streamed Hrun k s Hs)
    as (t & body & Hbody & Hshape).
  assert (Hbody' : Forall (fun m => is_progress m || is_result m = true) body).
  { eapply Forall_impl; [exact Hbody|]. by intros [] ?. }
  destruct (ended s).
  - destruct Hshape as (_ & payload & ->). exists t, (body ++ [Result payload]).
    split; [done|]. apply Forall_app. split; [done|]. by apply Forall_singleton.
  - exists t, body. by rewrite Hshape.
Qed.

Lemma ticks_unknown (n k : nat) (w : world) (s : subscription) :
  streams w !! k = Some s -> progress w !! target s = None ->
  run (replicate n (Tick k)) w = Some w.
Proof.
  intros Hs Hnone. induction n as [| n IH]; simpl; [done|].
  unfold tick. rewrite Hs. unfold on_interval. rewrite Hnone.
  destruct (timer s); simpl; [|done].
  rewrite list_insert_id; [|done]. by destruct w.
Qed.

(** C3, as the program has it. A stream opened for an id that the store
    does not hold writes the ping and, as long as the store does not
    hold the id, nothing more: every tick returns at [if (!p) return],
    the timer stays set and the response is not ended. *)
Theorem unknown_operation_stream_stays_open
    (w : world) (opId : string) (now : Z) (n : nat) :
  progress w !! opId = None ->
  let opened := get_stream opId now w in
  streams opened !! length (streams w) = Some (Sub opId true false [Ping now])
  ∧ run (replicate n (Tick (length (streams w)))) opened = Some opened.
Proof.
  intros Hnone opened.
  assert (Hs : streams opened !! length (streams w) = Some (Sub opId true false [Ping now])).
  { subst opened. simpl. rewrite lookup_app_r; [|done]. by rewrite Nat.sub_diag. }
  split; [done|]. by apply (ticks_unknown n _ opened _ Hs).
Qed.
End PublisherClaims.

(** ** The scenario *)

Section Scenario.
Context `{RT : Runtime}.


End Scenario.

(** * More of the code *)

(** ** The billing server over many calls *)



(** ** The input contract *)

Section Contract.
Context `{RT : Runtime}.

Lemma safeParse_inr (body : json) (d : CreateInvoiceInput) :
  safeParse body = inr d ->
  ∃ fs, body = JObj fs
        ∧ assoc "amount" fs = Some (JNum (amount d))
        ∧ assoc "currency" fs = Some (JStr (currency d))
        ∧ assoc "customer_email" fs = Some (JStr (customer_email d))
        ∧ accepts d.
Proof.
  unfold safeParse. destruct body as [| | | | | fs]; try discriminate.
  unfold parse_amount, parse_currency, parse_customer_email.
  destruct (assoc "amount" fs) as [[| | q | | |]|] eqn:Ha; try (intros; discriminate);
    try (destruct (Qle_bool 0 q) eqn:Hq);
    destruct (assoc "currency" fs) as [[| | | c | |]|] eqn:Hcur; try (intros; discriminate);
    try (destruct (Nat.compare_spec (String.length c) 3) as [Hc | Hc | Hc]);
    destruct (assoc "customer_email" fs) as [[| | | m | |]|] eqn:Hmail;
    try (intros; discriminate);
    try (destruct (is_email m) eqn:Hm); try (intros; discriminate).
  intros Heq. inversion Heq; subst. simpl. exists fs.
  split; [done|]. split; [done|]. split; [done|]. split; [done|].
  split; [by apply Qle_bool_iff | done].
Qed.

(** X2. [CreateInvoiceInput.safeParse] succeeds exactly on an object whose
    [amount] is a number not below zero, whose [currency] is a string of
    length 3 and whose [customer_email] is a string zod takes for an
    e-mail address; the parsed data are these three values, and any other
    key of the object is dropped. *)
Theorem safeParse_accepts_exactly (body : json) (d : CreateInvoiceInput) :
  safeParse body = inr d
  <-> ∃ fs, body = JObj fs
            ∧ assoc "amount" fs = Some (JNum (amount d))
            ∧ assoc "currency" fs = Some (JStr (currency d))
            ∧ assoc "customer_email" fs = Some (JStr (customer_email d))
            ∧ accepts d.
Proof.
  split; [apply safeParse_inr|].
  intros (fs & -> & Ha & Hc & Hm & Hq & Hlen & He).
  unfold safeParse. rewrite Ha, Hc, Hm.
  unfold parse_amount, parse_currency, parse_customer_email.
  apply Qle_bool_iff in Hq. rewrite Hq, Hlen, He. simpl. by destruct d.
Qed.
End Contract.

(** ** The shared connection *)

Section Connection.
Context `{RT : Runtime}.

Lemma advance_rest (n : nat) (t : task) (body : Try stage) (w w' : world) :
  advance n t body w = Some w' ->
  clientPromise w' = clientPromise w ∧ invoices w' = invoices w.
Proof.
  unfold advance. destruct (try_catch t body (progress w)) as [[st reg]|]; simpl; [|done].
  intros Hw. by inversion Hw; subst.
Qed.

(** A callback leaves [clientPromise] alone, or makes the pending promise
    of the first submission, or settles the pending promise. *)
Lemma step_client (ev : event) (w w' : world) :
  step ev w = Some w' ->
  clientPromise w' = clientPromise w
  ∨ (clientPromise w = None ∧ clientPromise w' = Some Pending)
  ∨ (clientPromise w = Some Pending ∧ is_Some (clientPromise w')).
Proof.
  destruct ev as [body | failure | n | n r | n | id now | k | k]; simpl; intros Hstep.
  - inversion Hstep; subst. unfold post_invoices.
    destruct (safeParse body); simpl; [by left|].
    destruct (clientPromise w); simpl; [by left | right; by left].
  - inversion Hstep; subst. unfold connect.
    destruct (clientPromise w) as [[| |]|] eqn:Hc; simpl; rewrite ?Hc; try (by left).
    right. right. eauto.
  - left. unfold resume in Hstep.
    destruct (tasks w !! n) as [t|]; [|by inversion Hstep].
    destruct (at_stage t); try (by inversion Hstep).
    destruct (clientPromise w) as [[| |]|] eqn:Hc; rewrite <- ?Hc;
      first [ by inversion Hstep; subst | by apply advance_rest in Hstep as [-> _] ].
  - left. unfold reply in Hstep.
    destruct (tasks w !! n) as [t|]; [|by inversion Hstep].
    destruct (at_stage t);
      first [ by inversion Hstep; subst | by apply advance_rest in Hstep as [-> _] ].
  - left. unfold serve in Hstep.
    destruct (tasks w !! n) as [t|]; [|by inversion Hstep].
    destruct (at_stage t) as [| | invId |]; try (by inversion Hstep).
    + destruct (Billing.create_invoice_schema (create_call t)); [|by inversion Hstep].
      destruct (Billing.create_invoice (create_call t) (invoices w)) as [r inv].
      by apply advance_rest in Hstep as [-> _].
    + destruct invId as [[]|];
        first [ by inversion Hstep; subst | by apply advance_rest in Hstep as [-> _] ].
  - inversion Hstep; subst. by left.
  - inversion Hstep; subst. left. unfold tick.
    destruct (streams w !! k) as [s|]; [destruct (timer s)|]; done.
  - inversion Hstep; subst. left. unfold close.
    by destruct (streams w !! k).
Qed.

(** X3. The connection is made once and remembered: once
    [getBillingClient] has made its promise, [clientPromise] is never
    [null] again, and once that promise is fulfilled or rejected it stays
    as it is, with the same error, whatever happens later. *)
Theorem connection_settles_once (evs : list event) (w w' : world) (p : promise) :
  run evs w = Some w' ->
  clientPromise w = Some p ->
  is_Some (clientPromise w') ∧ (p ≠ Pending -> clientPromise w' = Some p).
Proof.
  revert w p. induction evs as [| ev evs IH]; intros w p Hrun Hp; simpl in Hrun.
  - inversion Hrun; subst. rewrite Hp. eauto.
  - destruct (step ev w) as [w1|] eqn:Hstep; [|done]. simpl in Hrun.
    destruct (step_client ev w w1 Hstep) as [Hsame | [[Hnone _] | [Hpend [q Hq]]]].
    + apply (IH w1 p Hrun). by rewrite Hsame.
    + congruence.
    + destruct (IH w1 q Hrun Hq) as [Hsome _]. split; [done|].
      intros Hne. congruence.
Qed.

End Connection.

(** ** The routine, move by move *)

Section Moves.
Context `{RT : Runtime}.

Ltac open_try :=
  unfold mbind, Try_bind, bind, mret, Try_ret, ret, throw, awaited, raise,
    push, set, events_of, JSON_parse, read in *.

Ltac caught :=
  simpl; rewrite ?lookup_insert_eq; simpl; rewrite ?insert_insert_eq;
  eexists _, _; split; [reflexivity|]; simpl; constructor.

(** Woken at a stage with its entry in the store, a routine makes one of
    the moves and rewrites no other entry. *)
Lemma try_catch_move (t : task) (st : stage) (body : Try stage)
    (reg : gmap string entry) (p : entry) :
  runs_at t st body ->
  reg !! opId t = Some p ->
  ∃ st' p', try_catch t body reg = Some (st', <[opId t := p']> reg)
            ∧ routine_move st p st' p'.
Proof.
  intros Hbody Hp. unfold try_catch.
  destruct Hbody as [c | r | invId r].
  - unfold resume_client. open_try. destruct c as [e | []]; simpl; rewrite Hp.
    + caught.
    + caught.
  - unfold resume_create. open_try. destruct r as [e | resp]; simpl; rewrite Hp.
    + caught.
    + destruct (content resp) as [[| c cs] |]; simpl.
      * caught.
      * destruct (item_text c) as [[v | m] |]; simpl; [destruct v| |]; caught.
      * caught.
  - unfold resume_get. open_try. destruct r as [e | resp]; simpl; rewrite Hp.
    + caught.
    + rewrite lookup_insert_eq.
      destruct (content resp) as [[| c cs] |]; simpl.
      * caught.
      * destruct (item_text c) as [[v | m] |]; simpl; caught.
      * caught.
Qed.

Lemma advance_move (ev : event) (n : nat) (t : task) (body : Try stage) (w0 w : world) :
  routine_of ev = Some n ->
  runs_at t (at_stage t) body ->
  (at_stage t = AwaitClient ->
   clientPromise w0 = Some Fulfilled ∨ ∃ e, body = resume_client (inl e) t) ->
  progress w = progress w0 -> tasks w = tasks w0 -> minted w = minted w0 ->
  tasks w0 !! n = Some t ->
  registered w0 ->
  ∃ w', advance n t body w = Some w' ∧ store_move ev w0 w'.
Proof.
  intros Hev Hbody Hconn Hprog Htasks Hminted Ht Hreg.
  destruct (Hreg n t Ht) as [p Hp].
  destruct (try_catch_move t (at_stage t) body (progress w) p Hbody) as (st & p' & Htc & Hmove).
  { by rewrite Hprog. }
  unfold advance. rewrite Htc. simpl. eexists. split; [reflexivity|].
  eapply (move_routine ev w0 _ n t p p' st); simpl; try done; try congruence.
  - intros Hst. rewrite Hst in Hbody. inversion Hbody.
  - intros ->. inversion Hmove as [| q Hstage | | |]; subst.
    destruct (Hconn (eq_sym Hstage)) as [Hc | [e ->]]; [done|].
    unfold try_catch, resume_client in Htc. simpl in Htc.
    destruct (progress w !! opId t); inversion Htc.
Qed.

Lemma step_move (ev : event) (w : world) :
  registered w ->
  ∃ w', step ev w = Some w' ∧ store_move ev w w'.
Proof.
  intros Hreg. destruct ev as [body | failure | n | n r | n | id now | k | k]; simpl.
  - eexists. split; [reflexivity|]. unfold post_invoices.
    destruct (safeParse body) as [error | parsed] eqn:Hparse; simpl.
    + by apply move_none.
    + by apply (move_submit _ _ _ body parsed).
  - eexists. split; [reflexivity|]. unfold connect.
    destruct (clientPromise w) as [[| |]|]; by apply move_none.
  - unfold resume. destruct (tasks w !! n) as [t|] eqn:Ht.
    2:{ eexists; split; [reflexivity|]; by apply move_none. }
    destruct (at_stage t) eqn:Hst;
      try (eexists; split; [reflexivity|]; by apply move_none).
    destruct (clientPromise w) as [[| | e]|] eqn:Hc;
      try (eexists; split; [reflexivity|]; by apply move_none).
    + apply (advance_move (Resume n) n t _ w w);
        first [ done | by (rewrite Hst; constructor) | by (intros _; left) | by (intros _; right; eauto) | by (intros; congruence) ].
    + apply (advance_move (Resume n) n t _ w w);
        first [ done | by (rewrite Hst; constructor) | by (intros _; left) | by (intros _; right; eauto) | by (intros; congruence) ].
  - unfold reply. destruct (tasks w !! n) as [t|] eqn:Ht.
    2:{ eexists; split; [reflexivity|]; by apply move_none. }
    destruct (at_stage t) eqn:Hst;
      try (eexists; split; [reflexivity|]; by apply move_none).
    + apply (advance_move (Reply n r) n t _ w w);
        first [ done | by (rewrite Hst; constructor) | by (intros _; left) | by (intros _; right; eauto) | by (intros; congruence) ].
    + apply (advance_move (Reply n r) n t _ w w);
        first [ done | by (rewrite Hst; constructor) | by (intros _; left) | by (intros _; right; eauto) | by (intros; congruence) ].
  - unfold serve. destruct (tasks w !! n) as [t|] eqn:Ht.
    2:{ eexists; split; [reflexivity|]; by apply move_none. }
    destruct (at_stage t) as [| | invId |] eqn:Hst;
      try (eexists; split; [reflexivity|]; by apply move_none).
    + destruct (Billing.create_invoice_schema (create_call t));
        [|eexists; split; [reflexivity|]; by apply move_none].
      destruct (Billing.create_invoice (create_call t) (invoices w)) as [r inv].
      apply (advance_move (Serve n) n t _ w (with_invoices inv w));
        first [ done | by (rewrite Hst; constructor) | by (intros _; left) | by (intros _; right; eauto) | by (intros; congruence) ].
    + destruct invId as [[]|];
        try (eexists; split; [reflexivity|]; by apply move_none).
      apply (advance_move (Serve n) n t _ w w);
        first [ done | by (rewrite Hst; constructor) | by (intros _; left) | by (intros _; right; eauto) | by (intros; congruence) ].
  - eexists. split; [reflexivity|]. by apply move_none.
  - eexists. split; [reflexivity|]. unfold tick.
    destruct (streams w !! k) as [s|]; [destruct (timer s)|]; by apply move_none.
  - eexists. split; [reflexivity|]. unfold close.
    destruct (streams w !! k) as [s|]; by apply move_none.
Qed.
End Moves.

(** ** What every run keeps *)

Section Kept.
Context `{RT : Runtime}.

Lemma run_keeps (I : world -> Prop) :
  (∀ ev w w', registered w -> I w -> step ev w = Some w' -> I w') ->
  ∀ evs w w', registered w -> I w -> run evs w = Some w' -> I w'.
Proof.
  intros Hstep evs. induction evs as [| ev evs IH]; intros w w' Hreg HI Hrun; simpl in Hrun.
  - by inversion Hrun; subst.
  - destruct (step_change ev w Hreg) as (w1 & Hw1 & Hchange).
    rewrite Hw1 in Hrun. simpl in Hrun.
    apply (IH w1 w'); eauto using store_change_registered.
Qed.

Lemma step_store_move (ev : event) (w w' : world) :
  registered w -> step ev w = Some w' -> store_move ev w w'.
Proof.
  intros Hreg Hstep. destruct (step_move ev w Hreg) as (w1 & Hw1 & Hmove). congruence.
Qed.

Lemma step_store_change (ev : event) (w w' : world) :
  registered w -> step ev w = Some w' -> store_change w w'.
Proof.
  intros Hreg Hstep. destruct (step_change ev w Hreg) as (w1 & Hw1 & Hchange). congruence.
Qed.

(** The data of a routine are what [safeParse] let through. *)
Lemma step_validated (ev : event) (w w' : world) :
  registered w -> validated w -> step ev w = Some w' -> validated w'.
Proof.
  intros Hreg Hval Hstep.
  destruct (step_store_move ev w w' Hreg Hstep)
    as [Hp Ht Hm | body parsed Hev Hparse Hp Ht Hm | n t p p' st Hev Hn Hst Hlook Hmove Hconn Hp Ht Hm];
    intros m u Hu; rewrite Ht in Hu.
  - by apply (Hval m).
  - apply lookup_app_Some in Hu as [Hu | [_ Hu]]; [by apply (Hval m)|].
    apply list_lookup_singleton_Some in Hu as [_ <-]. simpl.
    by destruct (safeParse_inr body parsed Hparse) as (fs & _ & _ & _ & _ & Hacc).
  - apply list_lookup_insert_Some in Hu as [(-> & <- & _) | [_ Hu]]; simpl;
      [by apply (Hval m t) | by apply (Hval m)].
Qed.

Lemma boot_validated : validated boot.
Proof. intros n t Ht. simpl in Ht. by rewrite lookup_nil in Ht. Qed.

(** X5. For submissions whose amount is a finite number, what the
    backend sends to [billing.create_invoice] passes the tool's input
    schema: in every world the program can reach, the arguments
    [{...parsed.data, idempotency_key: opId}] of every routine satisfy
    [amount >= 0], a [currency] of length 3 and an e-mail
    [customer_email], because they passed [CreateInvoiceInput] first.
    The bodies of [Post] are [json] values, whose numbers are finite, and
    the statement goes no further: an amount written [1e400] is read by
    [express.json] as [Infinity], which [z.number().nonnegative()] lets
    through and [JSON.stringify] sends as [null], and that call the tool
    refuses. *)
Theorem finite_amounts_pass_tool_schema
    (evs : list event) (w : world) (n : nat) (t : task) :
  run evs boot = Some w ->
  tasks w !! n = Some t ->
  Billing.create_invoice_schema (create_call t) = true.
Proof.
  intros Hrun Ht.
  assert (Hval : validated w).
  { apply (run_keeps validated step_validated evs boot w boot_registered boot_validated Hrun). }
  destruct (Hval n t Ht) as (Hq & Hlen & He).
  unfold Billing.create_invoice_schema, create_call. simpl.
  apply Qle_bool_iff in Hq. rewrite Hq, Hlen, He. done.
Qed.
End Kept.

(** ** What every run keeps when ids are fresh *)

Section FreshKept.
Context `{RT : Runtime}.
Hypothesis nanoid_fresh : Inj (=) (=) nanoid.

Lemma entry_at_move (st st' : stage) (p p' : entry) :
  st ≠ Settled -> entry_at st p -> routine_move st p st' p' -> entry_at st' p'.
Proof.
  intros Hst Hat Hmove.
  destruct Hmove as [st p e | p | p invId | p e | invId p v]; simpl in *.
  - split; [done|]. right. destruct st; try done; simpl in Hat; subst p; simpl.
    + exists e, 1. by repeat split; try lia.
    + exists e, 2. by repeat split; try lia.
    + exists e, 3. by repeat split; try lia.
  - by subst p.
  - by subst p.
  - subst p. split; [done|]. right. exists e, 3. by repeat split; try lia.
  - subst p. split; [done|]. left. by exists v.
Qed.

Lemma step_scripted (ev : event) (w w' : world) :
  registered w -> accounted w ∧ scripted w -> step ev w = Some w' ->
  accounted w' ∧ scripted w'.
Proof.
  intros Hreg [Hacc Hscr] Hstep.
  split; [eapply store_change_accounted; eauto using step_store_change|].
  destruct Hacc as (Hlen & Hid & Hdone & Hkeys).
  destruct (step_store_move ev w w' Hreg Hstep)
    as [Hp Ht Hm | body parsed Hev Hparse Hp Ht Hm
        | n t p p' st Hev Hn Hst Hlook Hmove Hconn Hp Ht Hm];
    intros m u q Hu Hq; rewrite Ht in Hu; rewrite Hp in Hq.
  - by apply (Hscr m).
  - apply lookup_app_Some in Hu as [Hu | [_ Hu]].
    + rewrite lookup_insert_ne in Hq; [by apply (Hscr m)|].
      rewrite (Hid m u Hu). intros Heq. apply nanoid_fresh in Heq.
      apply lookup_lt_Some in Hu. lia.
    + apply list_lookup_singleton_Some in Hu as [_ <-]. simpl in *.
      rewrite lookup_insert_eq in Hq. by inversion Hq.
  - apply list_lookup_insert_Some in Hu as [(-> & <- & _) | [Hne Hu]]; simpl in *.
    + rewrite lookup_insert_eq in Hq. inversion Hq; subst q.
      eapply entry_at_move; eauto.
    + rewrite lookup_insert_ne in Hq; [by apply (Hscr m)|].
      rewrite (Hid n t Hn), (Hid m u Hu). intros Heq. by apply nanoid_fresh in Heq.
Qed.

Lemma boot_scripted : accounted boot ∧ scripted boot.
Proof.
  split; [apply boot_accounted|].
  intros n t p Ht. simpl in Ht. by rewrite lookup_nil in Ht.
Qed.

Lemma run_scripted (evs : list event) (w : world) :
  run evs boot = Some w -> accounted w ∧ scripted w.
Proof.
  apply (run_keeps (fun w => accounted w ∧ scripted w) step_scripted evs boot w
           boot_registered boot_scripted).
Qed.

(** Under fresh ids every entry is the entry of one routine. *)
Lemma entry_has_routine (w : world) (id : string) (p : entry) :
  accounted w -> progress w !! id = Some p ->
  ∃ n t, tasks w !! n = Some t ∧ opId t = id.
Proof.
  intros (Hlen & Hid & _ & Hkeys) Hp.
  destruct (Hkeys id) as (n & Hlt & ->); [eauto|].
  destruct (lookup_lt_is_Some_2 (tasks w) n) as [t Ht]; [lia|].
  exists n, t. split; [done|]. by apply Hid.
Qed.

(** X6. The log of an operation is always the script so far: at every
    moment of every run (ids being fresh) it consists of the first [n]
    of the labels "received", "connecting-mcp", "invoice-created",
    "invoice-fetched", for some [n] from 1 to 4, in this order and
    without repetition; while the operation is pending it has no result
    and at most the first three. *)
Theorem log_follows_script (evs : list event) (w : world) (id : string) (p : entry) :
  run evs boot = Some w ->
  progress w !! id = Some p ->
  ∃ n, 1 <= n <= 4
       ∧ events p = take n scenario_log
       ∧ (done p = false -> n <= 3 ∧ result p = None).
Proof.
  intros Hrun Hp. destruct (run_scripted evs w Hrun) as [Hacc Hscr].
  destruct (entry_has_routine w id p Hacc Hp) as (m & t & Ht & <-).
  pose proof (Hscr m t p Ht Hp) as Hat.
  destruct (at_stage t); simpl in Hat.
  - subst p. exists 1. by repeat split; try lia.
  - subst p. exists 2. by repeat split; try lia.
  - subst p. exists 3. by repeat split; try lia.
  - destruct Hat as [Hd [(v & Hv & Hlog) | (e & n & He & Hn & Hlog)]].
    + exists 4. rewrite Hlog, Hd. by repeat split; try lia.
    + exists n. rewrite Hd. by repeat split; try lia.
Qed.

(** X7. An operation that is done with fewer than all four labels in its
    log failed: its result is the error payload
    [{error: e?.message || "unknown"}] of the [catch] clause. Put the
    other way round, a result that came from the billing server's second
    reply is only ever found beside the complete log. *)
Theorem short_log_means_error (evs : list event) (w : world) (id : string) (p : entry) :
  run evs boot = Some w ->
  progress w !! id = Some p ->
  done p = true ->
  events p ≠ scenario_log ->
  ∃ e, result p = Some (JObj [("error", JStr (message_or_unknown e))]).
Proof.
  intros Hrun Hp Hd Hshort. destruct (run_scripted evs w Hrun) as [Hacc Hscr].
  destruct (entry_has_routine w id p Hacc Hp) as (m & t & Ht & <-).
  pose proof (Hscr m t p Ht Hp) as Hat.
  destruct (at_stage t); simpl in Hat; try (subst p; discriminate).
  destruct Hat as [_ [(v & Hv & Hlog) | (e & n & He & _)]]; [done|].
  by exists e.
Qed.

(** X8. The store holds exactly one entry for each id handed out: in
    every run (ids being fresh) an id has an entry exactly when [nanoid]
    returned it for an accepted request, and there are as many started
    routines as ids. Nothing is ever evicted. *)
Theorem store_holds_the_minted_ids (evs : list event) (w : world) (id : string) :
  run evs boot = Some w ->
  length (tasks w) = minted w
  ∧ (is_Some (progress w !! id) <-> ∃ n, n < minted w ∧ id = nanoid n).
Proof.
  intros Hrun. destruct (run_scripted evs w Hrun) as [Hacc _].
  destruct (run_registered evs boot w boot_registered boot_results Hrun) as [Hreg _].
  destruct Hacc as (Hlen & Hid & _ & Hkeys).
  split; [done|]. split; [apply Hkeys|].
  intros (n & Hlt & ->).
  destruct (lookup_lt_is_Some_2 (tasks w) n) as [t Ht]; [lia|].
  rewrite <- (Hid n t Ht). by apply (Hreg n t).
Qed.

(** Only the billing server's answer to a first call changes the invoices,
    and the routine that was answered then waits for its second reply or
    has returned. *)
Lemma step_invoices (ev : event) (w w' : world) :
  registered w -> step ev w = Some w' ->
  invoices w' = invoices w
  ∨ ∃ n t st,
      ev = Serve n ∧ tasks w !! n = Some t ∧ at_stage t = AwaitCreate
      ∧ invoices w' = (Billing.create_invoice (create_call t) (invoices w)).2
      ∧ tasks w' = <[n := Task (opId t) (data t) st]> (tasks w)
      ∧ st ≠ AwaitClient ∧ st ≠ AwaitCreate.
Proof.
  intros Hreg.
  destruct ev as [body | failure | n | n r | n | id now | k | k]; simpl; intros Hstep.
  - left. inversion Hstep; subst. unfold post_invoices. by destruct (safeParse body).
  - left. inversion Hstep; subst. unfold connect.
    by destruct (clientPromise w) as [[| |]|].
  - left. unfold resume in Hstep.
    destruct (tasks w !! n) as [t|]; [|by inversion Hstep].
    destruct (at_stage t); try (by inversion Hstep).
    destruct (clientPromise w) as [[| |]|];
      first [ by inversion Hstep; subst | by apply advance_rest in Hstep as [_ ->] ].
  - left. unfold reply in Hstep.
    destruct (tasks w !! n) as [t|]; [|by inversion Hstep].
    destruct (at_stage t);
      first [ by inversion Hstep; subst | by apply advance_rest in Hstep as [_ ->] ].
  - unfold serve in Hstep.
    destruct (tasks w !! n) as [t|] eqn:Ht; [|left; by inversion Hstep].
    destruct (at_stage t) as [| | invId |] eqn:Hst; try (left; by inversion Hstep).
    + destruct (Billing.create_invoice_schema (create_call t)); [|left; by inversion Hstep].
      destruct (Billing.create_invoice (create_call t) (invoices w)) as [r inv] eqn:Hcreate.
      destruct (Hreg n t Ht) as [p Hp].
      destruct (try_catch_move t AwaitCreate (resume_create (inr r) t) (progress w) p)
        as (st & p' & Htc & Hmove); [constructor | done |].
      unfold advance in Hstep. simpl in Hstep. rewrite Htc in Hstep. simpl in Hstep.
      inversion Hstep; subst. simpl. right. exists n, t, st.
      split; [done|]. split; [done|]. split; [done|].
      split; [by rewrite Hcreate|]. split; [done|].
      split; intros ->; inversion Hmove.
    + left. destruct invId as [[]|];
        first [ by inversion Hstep; subst | by apply advance_rest in Hstep as [_ ->] ].
  - left. by inversion Hstep; subst.
  - left. inversion Hstep; subst. unfold tick.
    destruct (streams w !! k) as [s|]; [destruct (timer s)|]; done.
  - left. inversion Hstep; subst. unfold close. by destruct (streams w !! k).
Qed.





Lemma store_change_extends (w w' : world) (id : string) (p : entry) :
  accounted w -> store_change w w' -> progress w !! id = Some p ->
  ∃ p', progress w' !! id = Some p' ∧ events p `prefix_of` events p'.
Proof.
  intros (Hlen & Hid & Hdone & Hkeys)
    [Hp Ht Hm | parsed Hp Ht Hm | n t q q' st Hn Hst Hlook Hp Ht Hm Hlog Hcases] Hlookup;
    rewrite Hp.
  - by exists p.
  - destruct (Hkeys id) as (m & Hlt & ->); [eauto|].
    rewrite lookup_insert_ne; [by exists p|].
    intros Heq. apply nanoid_fresh in Heq. lia.
  - destruct (decide (opId t = id)) as [<- | Hne].
    + rewrite lookup_insert_eq. exists q'. split; [done|].
      destruct Hlog as [more Hmore]. exists more. congruence.
    + rewrite lookup_insert_ne; [by exists p | done].
Qed.

(** X10. The log of an operation only grows at its end: what it holds at
    one moment of a run is a prefix of what it holds at every later
    moment (ids being fresh); no label is ever removed, replaced or
    reordered. *)
Theorem log_only_grows
    (evs1 evs2 : list event) (w1 w2 : world) (id : string) (p : entry) :
  run evs1 boot = Some w1 ->
  run evs2 w1 = Some w2 ->
  progress w1 !! id = Some p ->
  ∃ p', progress w2 !! id = Some p' ∧ events p `prefix_of` events p'.
Proof.
  intros Hrun1 Hrun2 Hp.
  destruct (run_registered evs1 boot w1 boot_registered boot_results Hrun1) as [Hreg _].
  pose proof (run_accounted nanoid_fresh evs1 boot w1 boot_registered boot_accounted Hrun1)
    as Hacc.
  clear Hrun1. revert w1 p Hreg Hacc Hrun2 Hp.
  induction evs2 as [| ev evs IH]; intros w1 p Hreg Hacc Hrun2 Hp; simpl in Hrun2.
  - inversion Hrun2; subst. by exists p.
  - destruct (step_change ev w1 Hreg) as (w & Hstep & Hchange).
    rewrite Hstep in Hrun2. simpl in Hrun2.
    destruct (store_change_extends w1 w id p Hacc Hchange Hp) as (q & Hq & Hpre).
    destruct (IH w q) as (p' & Hp' & Hpre');
      eauto using store_change_registered, store_change_accounted.
    exists p'. split; [done|]. by etrans.
Qed.
End FreshKept.

(** ** One operation at a time *)

Section Isolation.
Context `{RT : Runtime}.

(** X11. A callback writes at most one entry of the store: a submission
    writes the entry of the id it mints, and a wake-up of a routine
    writes the entry of that routine's own operation. The entries of all
    other operations, and every entry when a stream is opened, ticks or
    is closed, are left as they are. *)
Theorem callback_writes_only_its_entry
    (evs : list event) (w w' : world) (ev : event) (id : string) :
  run evs boot = Some w ->
  step ev w = Some w' ->
  progress w' !! id ≠ progress w !! id ->
  (∃ body, ev = Post body ∧ id = nanoid (minted w))
  ∨ (∃ n t, routine_of ev = Some n ∧ tasks w !! n = Some t ∧ opId t = id).
Proof.
  intros Hrun Hstep Hdiff.
  destruct (run_registered evs boot w boot_registered boot_results Hrun) as [Hreg _].
  destruct (step_store_move ev w w' Hreg Hstep)
    as [Hp Ht Hm | body parsed Hev Hparse Hp Ht Hm
        | n t p p' st Hev Hn Hst Hlook Hmove Hconn Hp Ht Hm]; rewrite Hp in Hdiff.
  - done.
  - left. exists body. split; [done|].
    destruct (decide (nanoid (minted w) = id)) as [<- | Hne]; [done|].
    by rewrite lookup_insert_ne in Hdiff.
  - right. exists n, t. split; [done|]. split; [done|].
    destruct (decide (opId t = id)) as [<- | Hne]; [done|].
    by rewrite lookup_insert_ne in Hdiff.
Qed.
End Isolation.

(** ** What a stream delivers *)

Section Delivery.
Context `{RT : Runtime}.

(** A callback of the publisher leaves the store alone; any other
    callback leaves the streams alone. *)
Lemma step_store_or_streams (ev : event) (w w' : world) :
  step ev w = Some w' -> streams w' = streams w ∨ progress w' = progress w.
Proof.
  destruct ev as [body | failure | n | n r | n | id now | k | k]; simpl; intros Hstep.
  - left. inversion Hstep; subst. unfold post_invoices. by destruct (safeParse body).
  - left. inversion Hstep; subst. unfold connect.
    by destruct (clientPromise w) as [[| |]|].
  - left. unfold resume in Hstep.
    destruct (tasks w !! n) as [t|]; [|by inversion Hstep].
    destruct (at_stage t); try (by inversion Hstep).
    destruct (clientPromise w) as [[| |]|];
      first [ by inversion Hstep; subst | by apply advance_streams in Hstep ].
  - left. unfold reply in Hstep.
    destruct (tasks w !! n) as [t|]; [|by inversion Hstep].
    destruct (at_stage t);
      first [ by inversion Hstep; subst | by apply advance_streams in Hstep ].
  - left. unfold serve in Hstep.
    destruct (tasks w !! n) as [t|]; [|by inversion Hstep].
    destruct (at_stage t) as [| | invId |]; try (by inversion Hstep).
    + destruct (Billing.create_invoice_schema (create_call t)); [|by inversion Hstep].
      destruct (Billing.create_invoice (create_call t) (invoices w)) as [r inv].
      by apply advance_streams in Hstep.
    + destruct invId as [[]|];
        first [ by inversion Hstep; subst | by apply advance_streams in Hstep ].
  - right. by inversion Hstep; subst.
  - right. inversion Hstep; subst. unfold tick.
    destruct (streams w !! k) as [s|]; [destruct (timer s)|]; done.
  - right. inversion Hstep; subst. unfold close. by destruct (streams w !! k).
Qed.

Lemma open_stream_has_no_result (s : subscription) :
  well_streamed s -> timer s = true ->
  ended s = false ∧ Forall (fun m => is_result m = false) (written s).
Proof.
  intros (t & body & Hbody & Hshape) Htimer.
  destruct (ended s); [destruct Hshape; congruence|].
  split; [done|]. rewrite Hshape. constructor; [done|].
  eapply Forall_impl; [exact Hbody|]. by intros [].
Qed.

Section Fresh.
Hypothesis nanoid_fresh : Inj (=) (=) nanoid.

Lemma step_delivered (ev : event) (w w' : world) :
  registered w ->
  accounted w ∧ all_well_streamed w ∧ delivered w ->
  step ev w = Some w' ->
  accounted w' ∧ all_well_streamed w' ∧ delivered w'.
Proof.
  intros Hreg (Hacc & Hwell & Hdel) Hstep.
  pose proof (step_store_change ev w w' Hreg Hstep) as Hchange.
  pose proof (step_stream_change ev w w' Hstep) as Hstreams.
  split; [by eapply store_change_accounted|].
  split; [exact (stream_change_well_streamed w w' Hwell Hstreams)|].
  intros k s Hs Hended.
  destruct (step_store_or_streams ev w w' Hstep) as [Hsame | Hsame].
  - rewrite Hsame in Hs. destruct (Hdel k s Hs Hended) as (p & before & Hp & Hd & Hno & Hw).
    destruct (store_change_keeps_done nanoid_fresh w w' (target s) p Hacc Hchange Hp)
      as (p' & Hp' & Hkeep).
    rewrite (Hkeep Hd) in Hp'. by exists p, before.
  - rewrite Hsame.
    destruct Hstreams as [Hkept | id now Hnew | j u Hj Htimer Hnew | j u Hj Hnew];
      rewrite ?Hkept, ?Hnew in Hs.
    + by apply (Hdel k s).
    + apply lookup_app_Some in Hs as [Hs | [_ Hs]]; [by apply (Hdel k s)|].
      apply list_lookup_singleton_Some in Hs as [_ <-]. discriminate.
    + apply list_lookup_insert_Some in Hs as [(-> & <- & _) | [_ Hs]];
        [|by apply (Hdel k s)].
      destruct (open_stream_has_no_result u (Hwell k u Hj) Htimer) as [Hopen Hno].
      unfold on_interval in *.
      destruct (progress w !! target u) as [p|] eqn:Hp; [|congruence].
      destruct (done p) eqn:Hd; simpl in *; [|congruence].
      exists p, (written u). rewrite <- app_assoc. by rewrite Hd.
    + apply list_lookup_insert_Some in Hs as [(-> & <- & _) | [_ Hs]];
        [by apply (Hdel k u) | by apply (Hdel k s)].
Qed.

Lemma run_delivered (evs : list event) (w : world) :
  run evs boot = Some w -> delivered w.
Proof.
  intros Hrun.
  apply (run_keeps (fun w => accounted w ∧ all_well_streamed w ∧ delivered w)
           step_delivered evs boot w boot_registered); [|done].
  split; [apply boot_accounted|]. split; [intros k s; apply boot_well_streamed|].
  intros k s Hs. simpl in Hs. by rewrite lookup_nil in Hs.
Qed.

(** X12. What an ended stream delivered is what the store holds: in every
    run (ids being fresh), the last two messages of a stream that was
    ended are the progress message with the final log of its operation
    and the result message with the operation's result, as they stand in
    the store now, and no result message came before them. *)
Theorem ended_stream_delivered_the_entry
    (evs : list event) (w : world) (k : nat) (s : subscription) :
  run evs boot = Some w ->
  streams w !! k = Some s ->
  ended s = true ->
  ∃ p before,
    progress w !! target s = Some p
    ∧ done p = true
    ∧ Forall (fun m => is_result m = false) before
    ∧ written s = before ++ [Progress (events p) true; Result (result p)].
Proof.
  intros Hrun Hs Hended. by apply (run_delivered evs w Hrun k s).
Qed.

Lemma watch_before_result (before : list sse_message) (a : page) :
  Forall (fun m => is_result m = false) before ->
  source_closed a = false ->
  ∃ log, watch before a = Page log (shown_result a) false.
Proof.
  revert a. induction before as [| m before IH]; intros a Hno Hopen; simpl.
  - exists (shown_events a). by destruct a; simpl in *; subst.
  - inversion Hno as [| ? ? Hm Hrest]; subst.
    unfold watch in *. simpl. unfold receive at 2. rewrite Hopen.
    destruct m as [t | log d | payload]; [by apply IH | | discriminate].
    destruct (IH (Page log (shown_result a) false) Hrest eq_refl) as [log' Hlog'].
    by exists log'.
Qed.

(** X13. The page ends up showing what the store holds: when the
    listeners of [App.tsx] have received, in order, the messages of a
    stream that was ended, the page shows the final log of the operation
    as its events and the operation's result as its result, and it has
    closed the event source; the ping was ignored. *)
Theorem page_shows_the_final_entry
    (evs : list event) (w : world) (k : nat) (s : subscription) :
  run evs boot = Some w ->
  streams w !! k = Some s ->
  ended s = true ->
  ∃ p v,
    progress w !! target s = Some p
    ∧ result p = Some v
    ∧ watch (written s) submitted_page = Page (events p) v true.
Proof.
  intros Hrun Hs Hended.
  destruct (run_delivered evs w Hrun k s Hs Hended) as (p & before & Hp & Hd & Hno & Hw).
  destruct (run_registered evs boot w boot_registered boot_results Hrun) as [_ Hres].
  destruct (proj1 (Hres _ _ Hp) Hd) as [v Hv].
  exists p, v. split; [done|]. split; [done|].
  destruct (watch_before_result before submitted_page Hno eq_refl) as [log Hlog].
  rewrite Hw, Hv. unfold watch in *. rewrite foldl_app, Hlog. reflexivity.
Qed.
End Fresh.

(** X14. When the caller of a stream goes away the interval is cleared
    for good: from then on, whatever else happens, nothing more is
    written on that stream and its state is the one it had at the
    disconnect, with the timer off. *)
Theorem closed_stream_is_never_written
    (w w' : world) (k : nat) (s : subscription) (evs : list event) :
  streams w !! k = Some s ->
  run evs (close k w) = Some w' ->
  streams w' !! k = Some (Sub (target s) false (ended s) (written s)).
Proof.
  intros Hs Hrun. apply (run_frozen evs (close k w) w' k); [done| |done].
  unfold close. rewrite Hs. simpl.
  apply list_lookup_insert_eq. by eapply lookup_lt_Some.
Qed.
End Delivery.

(** ** Replies and what becomes of them *)

Section Replies.
Context `{RT : Runtime}.

Ltac wake :=
  repeat (progress
    (unfold advance, try_catch, resume_client, resume_create, resume_get, push,
       events_of, set, JSON_parse, read, awaited, raise, mbind, Try_bind, bind,
       mret, Try_ret, ret, throw, text_result in *;
     simpl;
     rewrite ?lookup_insert_eq, ?insert_insert_eq)).

(** X15. A reply to [billing.create_invoice] that has no content, or an
    empty content array, fails the operation with the message "MCP error
    creating invoice", and it does so after "invoice-created" was pushed:
    the log of the failed operation ends with "invoice-created" although
    no invoice id was read. *)
Theorem empty_create_reply_fails_after_logging
    (w : world) (n : nat) (t : task) (p : entry) (resp : CallToolResult) :
  tasks w !! n = Some t ->
  at_stage t = AwaitCreate ->
  progress w !! opId t = Some p ->
  content resp = None ∨ content resp = Some [] ->
  step (Reply n (inr resp)) w
  = Some (with_routine
            (<[opId t := Entry true (events p ++ ["invoice-created"])
                               (Some (JObj [("error", JStr "MCP error creating invoice")]))]>
               (progress w))
            (<[n := Task (opId t) (data t) Settled]> (tasks w)) w).
Proof.
  intros Ht Hst Hp Hempty. simpl. unfold reply. rewrite Ht, Hst.
  wake. rewrite Hp. destruct Hempty as [-> | ->]; wake; reflexivity.
Qed.

(** X16. Whatever JSON value the first content item of the reply to
    [billing.get_invoice] holds becomes the result of the operation, as
    it is, the billing server's [{error: "NOT_FOUND"}] included: the
    operation is done, "invoice-fetched" is logged, and further content
    items are not read. A reply whose content is the empty array has no
    first item: reading [content[0].text] throws, and the operation is
    done with that [TypeError]'s message as its error, "invoice-fetched"
    being logged all the same. *)
Theorem get_reply_is_forwarded
    (w : world) (n : nat) (t : task) (invId : option json) (p : entry)
    (item_type : string) (v : json) (more : list content_item) :
  tasks w !! n = Some t ->
  at_stage t = AwaitGet invId ->
  progress w !! opId t = Some p ->
  let finished (result : json) :=
    Some (with_routine
            (<[opId t := Entry true (events p ++ ["invoice-fetched"]) (Some result)]>
               (progress w))
            (<[n := Task (opId t) (data t) Settled]> (tasks w)) w) in
  step (Reply n (inr (ToolResult (Some (Item item_type (Some (Stringified v)) :: more))))) w
  = finished v
  ∧ step (Reply n (inr (ToolResult (Some [])))) w
    = finished (JObj [("error", JStr (message_or_unknown
                                        (Thrown (Some (engine_message (ReadOfUndefined "text"))))))]).
Proof.
  intros Ht Hst Hp finished. subst finished. simpl. unfold reply. rewrite Ht, Hst.
  wake. rewrite Hp. wake. done.
Qed.





End Replies.

(** ** Calls and the connection *)

Section Calls.
Context `{RT : Runtime}.

Lemma fulfilled_stays (ev : event) (w w' : world) :
  step ev w = Some w' -> clientPromise w = Some Fulfilled ->
  clientPromise w' = Some Fulfilled.
Proof.
  intros Hstep Hc.
  destruct (step_client ev w w' Hstep) as [Hsame | [[Hnone _] | [Hpend _]]]; congruence.
Qed.

Lemma step_calls (ev : event) (w w' : world) :
  registered w -> calls_need_connection w -> step ev w = Some w' ->
  calls_need_connection w'.
Proof.
  intros Hreg [Htasks Hinv] Hstep.
  assert (Hold : clientPromise w = Some Fulfilled -> clientPromise w' = Some Fulfilled)
    by apply (fulfilled_stays ev w w' Hstep).
  split.
  - intros m u Hu Hcalled. apply Hold.
    destruct (step_store_move ev w w' Hreg Hstep)
      as [Hp Ht Hm | body parsed Hev Hparse Hp Ht Hm
          | n t p p' st Hev Hn Hst Hlook Hmove Hconn Hp Ht Hm]; rewrite Ht in Hu.
    + by apply (Htasks m u).
    + apply lookup_app_Some in Hu as [Hu | [_ Hu]]; [by apply (Htasks m u)|].
      apply list_lookup_singleton_Some in Hu as [_ <-].
      destruct Hcalled as [Hc | [invId Hc]]; discriminate.
    + apply list_lookup_insert_Some in Hu as [(-> & <- & _) | [_ Hu]];
        [|by apply (Htasks m u)].
      simpl in Hcalled. destruct Hcalled as [-> | [invId ->]]; [by apply Hconn|].
      apply (Htasks m t Hn). inversion Hmove; subst. by left.
  - intros id Hsome. apply Hold.
    destruct (step_invoices ev w w' Hreg Hstep)
      as [Hsame | (n & t & st & -> & Hn & Hst & _)].
    + rewrite Hsame in Hsome. by apply (Hinv id).
    + apply (Htasks n t Hn). by left.
Qed.

(** X18. No tool is called without the connection: in every world the
    program can reach, a routine that has sent [billing.create_invoice]
    or [billing.get_invoice] implies that [clientPromise] is fulfilled,
    and so does every invoice in the billing store. While the connection
    is pending, and after it failed, every routine waits at
    [await getBillingClient()] or has returned. *)
Theorem tool_calls_need_connection (evs : list event) (w : world) :
  run evs boot = Some w ->
  (∀ n t, tasks w !! n = Some t -> called (at_stage t) ->
          clientPromise w = Some Fulfilled)
  ∧ (∀ id, is_Some (invoices w !! id) -> clientPromise w = Some Fulfilled).
Proof.
  intros Hrun.
  apply (run_keeps calls_need_connection step_calls evs boot w boot_registered); [|done].
  split.
  - intros n t Ht. simpl in Ht. by rewrite lookup_nil in Ht.
  - intros id [inv Hinv]. simpl in Hinv. by rewrite lookup_empty in Hinv.
Qed.
End Calls.

(** ** The feed never goes back *)

Section Feed.
Context `{RT : Runtime}.
Hypothesis nanoid_fresh : Inj (=) (=) nanoid.

(** A progress message in what an interval callback has written is an
    old one, or the one just written, which comes last among them. *)
Lemma lookup_fired (old : list sse_message) (log : list string) (d : bool)
    (tail : list sse_message) (i : nat) (a : list string) (da : bool) :
  Forall (fun m => is_progress m = false) tail ->
  (old ++ Progress log d :: tail) !! i = Some (Progress a da) ->
  (i < length old ∧ old !! i = Some (Progress a da)) ∨ (i = length old ∧ a = log).
Proof.
  intros Htail Hi. apply lookup_app_Some in Hi as [Hi | [Hge Hi]].
  - left. split; [by eapply lookup_lt_Some | done].
  - right. destruct (i - length old) as [| r] eqn:Hr; simpl in Hi.
    + inversion Hi; subst. split; [lia | done].
    + apply list_elem_of_lookup_2 in Hi.
      rewrite Forall_forall in Htail. apply Htail in Hi. discriminate.
Qed.

Lemma on_interval_written (reg : gmap string entry) (u : subscription) (q : entry) :
  reg !! target u = Some q ->
  ∃ tail, Forall (fun m => is_progress m = false) tail
          ∧ written (on_interval reg u) = written u ++ Progress (events q) (done q) :: tail
          ∧ target (on_interval reg u) = target u.
Proof.
  intros Hq. unfold on_interval. rewrite Hq. destruct (done q); simpl.
  - exists [Result (result q)]. rewrite <- app_assoc. by repeat constructor.
  - by exists [].
Qed.

Lemma step_feed (ev : event) (w w' : world) :
  registered w -> accounted w ∧ feed_grows w -> step ev w = Some w' ->
  accounted w' ∧ feed_grows w'.
Proof.
  intros Hreg [Hacc Hfeed] Hstep.
  pose proof (step_store_change ev w w' Hreg Hstep) as Hchange.
  split; [by eapply store_change_accounted|].
  intros k s Hs.
  destruct (step_store_or_streams ev w w' Hstep) as [Hsame | Hsame].
  - rewrite Hsame in Hs. destruct (Hfeed k s Hs) as [Horder Hbelow].
    split; [done|]. intros i a da Hi.
    destruct (Hbelow i a da Hi) as (q & Hq & Hpre).
    destruct (store_change_extends nanoid_fresh w w' (target s) q Hacc Hchange Hq)
      as (q' & Hq' & Hpre').
    exists q'. split; [done|]. by etrans.
  - rewrite Hsame.
    destruct (step_stream_change ev w w' Hstep)
      as [Hkept | id now Hnew | j u Hj Htimer Hnew | j u Hj Hnew];
      rewrite ?Hkept, ?Hnew in Hs.
    + by apply (Hfeed k s).
    + apply lookup_app_Some in Hs as [Hs | [_ Hs]]; [by apply (Hfeed k s)|].
      apply list_lookup_singleton_Some in Hs as [_ <-]. simpl.
      split; intros; destruct i as [| i]; simpl in *; discriminate.
    + apply list_lookup_insert_Some in Hs as [(-> & <- & _) | [_ Hs]];
        [|by apply (Hfeed k s)].
      destruct (progress w !! target u) as [q|] eqn:Hq.
      2:{ unfold on_interval. rewrite Hq. destruct (Hfeed k u Hj) as [Horder Hbelow].
          split; [exact Horder|]. intros i a da Hi.
          destruct (Hbelow i a da Hi) as (q & Hnone & _). congruence. }
      destruct (Hfeed k u Hj) as [Horder Hbelow].
      destruct (on_interval_written (progress w) u q Hq) as (tail & Htail & -> & ->).
      split.
      * intros i i' a da b db Hle Hi Hi'.
        destruct (lookup_fired _ _ _ _ i a da Htail Hi) as [[Hlt Hold] | [-> ->]];
          destruct (lookup_fired _ _ _ _ i' b db Htail Hi') as [[Hlt' Hold'] | [-> ->]].
        -- by apply (Horder i i' a da b db).
        -- destruct (Hbelow i a da Hold) as (q0 & Hq0 & Hpre). congruence.
        -- lia.
        -- done.
      * intros i a da Hi.
        destruct (lookup_fired _ _ _ _ i a da Htail Hi) as [[Hlt Hold] | [-> ->]];
          [by apply (Hbelow i a da) | by exists q].
    + apply list_lookup_insert_Some in Hs as [(-> & <- & _) | [_ Hs]];
        [by apply (Hfeed k u) | by apply (Hfeed k s)].
Qed.

(** X19. The feed never goes back: on every stream of every run (ids
    being fresh), of two progress messages the earlier one carries a
    prefix of the log the later one carries, and no progress message is
    ahead of the log the store holds for the operation. *)
Theorem feed_never_goes_back
    (evs : list event) (w : world) (k : nat) (s : subscription)
    (i j : nat) (a b : list string) (da db : bool) :
  run evs boot = Some w ->
  streams w !! k = Some s ->
  i <= j ->
  written s !! i = Some (Progress a da) ->
  written s !! j = Some (Progress b db) ->
  a `prefix_of` b
  ∧ ∃ q, progress w !! target s = Some q ∧ b `prefix_of` events q.
Proof.
  intros Hrun Hs Hle Hi Hj.
  assert (Hfeed : accounted w ∧ feed_grows w).
  { apply (run_keeps (fun w => accounted w ∧ feed_grows w) step_feed evs boot w
             boot_registered); [|done].
    split; [apply boot_accounted|]. intros k' s' Hs'. simpl in Hs'.
    by rewrite lookup_nil in Hs'. }
  destruct Hfeed as [_ Hfeed]. destruct (Hfeed k s Hs) as [Horder Hbelow].
  split; [by apply (Horder i j a da b db) | by apply (Hbelow j b db)].
Qed.
End Feed.

(** * The claims on [node] *)

#[local] Existing Instance node.

Lemma token_fresh : Inj (=) (=) token.
Proof.
  intros n m Heq. unfold token in Heq. simpl in Heq.
  injection Heq as Heq. simpl in Heq. apply pretty_nat_inj in Heq. lia.
Qed.

Lemma node_world_run (evs : list event) : run evs boot = Some (node_world evs).
Proof.
  destruct (run_total evs boot boot_registered) as [w Hw].
  unfold node_world. by rewrite Hw.
Qed.

Lemma node_world_app (evs1 evs2 : list event) :
  run evs2 (node_world evs1) = Some (node_world (evs1 ++ evs2)).
Proof.
  rewrite <- node_world_run, run_app. by rewrite node_world_run.
Qed.

Lemma submit_returns_pending_id_witness :
  (post_invoices scenario_body boot).1 = Status202 "op1"
  ∧ progress (post_invoices scenario_body boot).2 !! "op1"
    = Some (Entry false ["received"] None)
  ∧ minted (post_invoices scenario_body boot).2 = 1
  ∧ tasks (post_invoices scenario_body boot).2
    = [Task "op1" (MkInput 100 "USD" "a@b.com") AwaitClient].
Proof.
  exact (submit_returns_pending_id scenario_body (MkInput 100 "USD" "a@b.com") boot
           eq_refl).
Defined.

Lemma invalid_request_changes_nothing_witness :
  post_invoices (usd_invoice (-1)) boot = (Status400 [("amount", too_small)], boot)
  ∧ progress (post_invoices (usd_invoice (-1)) boot).2 = progress boot
  ∧ minted (post_invoices (usd_invoice (-1)) boot).2 = minted boot
  ∧ tasks (post_invoices (usd_invoice (-1)) boot).2 = tasks boot.
Proof.
  exact (invalid_request_changes_nothing (usd_invoice (-1)) [("amount", too_small)] boot
           eq_refl).
Defined.

Lemma zero_amount_accepted_witness :
  (post_invoices (usd_invoice 0) boot).1 = Status202 "op1"
  ∧ progress (post_invoices (usd_invoice 0) boot).2 !! "op1"
    = Some (Entry false ["received"] None)
  ∧ ∀ q : Q,
      (∃ error, (post_invoices (usd_invoice q) boot).1 = Status400 error) ↔ (q < 0)%Q.
Proof.
  exact (zero_amount_accepted boot eq_refl).
Defined.


Lemma operation_finalized_once_witness :
  let w2 := node_world (scenario_on_node ++ later_traffic) in
  let p := Entry true scenario_log (Some (scenario_invoice "op1")) in
  (done p = true <-> is_Some (result p))
  ∧ ∃ p', progress w2 !! "op1" = Some p'
          ∧ (done p' = true <-> is_Some (result p'))
          ∧ (done p = true -> p' = p).
Proof.
  intros w2 p.
  apply (operation_finalized_once (RT := node) scenario_on_node later_traffic
           (node_world scenario_on_node) w2 "op1" p).
  - exact token_fresh.
  - apply node_world_run.
  - apply node_world_app.
  - vm_compute. reflexivity.
Defined.

Lemma terminal_result_once_witness :
  let w := node_world scenario_unobserved in
  let s := Sub "op1" true false [Ping 0] in
  (∀ p, timer s = true -> progress w !! target s = Some p -> done p = true ->
        ∃ v, result p = Some v
             ∧ streams (tick 0 w) !! 0
               = Some (Sub (target s) false true
                           (written s ++ [Progress (events p) true; Result (Some v)])))
  ∧ (if ended s
     then timer s = false
          ∧ ∃ before payload,
              written s = before ++ [Result payload]
              ∧ Forall (fun m => is_result m = false) before
     else Forall (fun m => is_result m = false) (written s))
  ∧ (ended s = true ->
     ∀ evs' w', run evs' w = Some w' -> streams w' !! 0 = Some s).
Proof.
  intros w s.
  apply (terminal_result_once (RT := node) scenario_unobserved w 0 s).
  - apply node_world_run.
  - vm_compute. reflexivity.
Defined.

Lemma stream_is_ping_then_progress_and_result_witness :
  ∃ t rest,
    [Ping 0; Progress ["received"] false; Progress scenario_log true;
     Result (Some (scenario_invoice "op1"))] = Ping t :: rest
    ∧ Forall (fun m => is_progress m || is_result m = true) rest.
Proof.
  apply (stream_is_ping_then_progress_and_result (RT := node) scenario_on_node
           (node_world scenario_on_node) 0
           (Sub "op1" false true
                [Ping 0; Progress ["received"] false; Progress scenario_log true;
                 Result (Some (scenario_invoice "op1"))])).
  - apply node_world_run.
  - vm_compute. reflexivity.
Defined.

Lemma unknown_operation_stream_stays_open_witness :
  let opened := get_stream "ghost" 0 (node_world [Post scenario_body]) in
  streams opened !! 0 = Some (Sub "ghost" true false [Ping 0])
  ∧ run (replicate 3 (Tick 0)) opened = Some opened.
Proof.
  apply (unknown_operation_stream_stays_open (RT := node) (node_world [Post scenario_body])
           "ghost" 0 3).
  vm_compute. reflexivity.
Defined.


(** ** Where the program differs from the specification *)


(** C3 as stated fails: a stream opened for the unknown id "ghost" has
    written the ping and nothing else after any number of ticks; its timer
    is still set and the response was never ended. *)
Lemma unknown_operation_gets_no_answer :
  ∃ w,
    (∀ n, run (Stream "ghost" 0 :: replicate n (Tick 0)) boot = Some w)
    ∧ progress w !! "ghost" = None
    ∧ streams w = [Sub "ghost" true false [Ping 0]].
Proof.
  exists (get_stream "ghost" 0 boot). split; [|split]; [|reflexivity|reflexivity].
  intros n. simpl run. simpl mbind.
  by apply (ticks_unknown n 0 _ (Sub "ghost" true false [Ping 0])).
Qed.


(** C9 as stated fails: the first message on the stream of "op1" is a
    ping, which is neither a progress nor a result message. *)
Lemma ping_is_on_the_stream :
  ∃ w,
    run [Post scenario_body; Stream "op1" 0] boot = Some w
    ∧ streams w !! 0 = Some (Sub "op1" true false [Ping 0])
    ∧ ¬ only_progress_and_results w.
Proof.
  exists (node_world [Post scenario_body; Stream "op1" 0]).
  split; [apply node_world_run|].
  assert (Hs : streams (node_world [Post scenario_body; Stream "op1" 0]) !! 0
               = Some (Sub "op1" true false [Ping 0])).
  { vm_compute. reflexivity. }
  split; [exact Hs|]. intros Hall.
  specialize (Hall 0 _ (Ping 0) Hs (list_elem_of_here _ _)). discriminate.
Qed.

(** * The further properties on [node] *)

Lemma node_world_step (evs : list event) (ev : event) :
  step ev (node_world evs) = Some (node_world (evs ++ [ev])).
Proof.
  pose proof (node_world_app evs [ev]) as Hrun. simpl in Hrun.
  by destruct (step ev (node_world evs)).
Qed.

Lemma node_world_close (evs : list event) (k : nat) :
  close k (node_world evs) = node_world (evs ++ [Close k]).
Proof.
  pose proof (node_world_step evs (Close k)) as Hstep. simpl in Hstep. congruence.
Qed.

Lemma connection_settles_once_witness :
  let e := Thrown (Some "spawn node ENOENT") in
  let w' := node_world (refused_connection ++ [Post scenario_body; Connect None; Tick 0]) in
  is_Some (clientPromise w') ∧ (Rejected e ≠ Pending -> clientPromise w' = Some (Rejected e)).
Proof.
  intros e w'.
  apply (connection_settles_once (RT := node) [Post scenario_body; Connect None; Tick 0]
           (node_world refused_connection) w' (Rejected e)).
  - apply node_world_app.
  - vm_compute. reflexivity.
Defined.


Lemma finite_amounts_pass_tool_schema_witness :
  Billing.create_invoice_schema
    (create_call (Task "op1" (MkInput 100 "USD" "a@b.com") Settled)) = true.
Proof.
  apply (finite_amounts_pass_tool_schema (RT := node) scenario_on_node
           (node_world scenario_on_node) 0).
  - apply node_world_run.
  - vm_compute. reflexivity.
Defined.

Lemma log_follows_script_witness :
  let p := Entry true scenario_log (Some (scenario_invoice "op1")) in
  ∃ n, 1 <= n <= 4
       ∧ events p = take n scenario_log
       ∧ (done p = false -> n <= 3 ∧ result p = None).
Proof.
  intros p.
  apply (log_follows_script (RT := node) token_fresh scenario_on_node
           (node_world scenario_on_node) "op1" p).
  - apply node_world_run.
  - vm_compute. reflexivity.
Defined.

Lemma short_log_means_error_witness :
  let p := Entry true ["received"] (Some (JObj [("error", JStr "spawn node ENOENT")])) in
  ∃ e, result p = Some (JObj [("error", JStr (message_or_unknown e))]).
Proof.
  intros p.
  apply (short_log_means_error (RT := node) token_fresh (refused_connection ++ [Resume 0])
           (node_world (refused_connection ++ [Resume 0])) "op1" p).
  - apply node_world_run.
  - vm_compute. reflexivity.
  - reflexivity.
  - discriminate.
Defined.

Lemma store_holds_the_minted_ids_witness :
  let w := node_world scenario_on_node in
  length (tasks w) = minted w
  ∧ (is_Some (progress w !! "op1") <-> ∃ n, n < minted w ∧ "op1" = nanoid n).
Proof.
  intros w.
  apply (store_holds_the_minted_ids (RT := node) token_fresh scenario_on_node w "op1").
  apply node_world_run.
Defined.


Lemma log_only_grows_witness :
  let p := Entry false ["received"] None in
  let w2 := node_world ([Post scenario_body] ++ [Connect None; Resume 0; Serve 0]) in
  ∃ p', progress w2 !! "op1" = Some p' ∧ events p `prefix_of` events p'.
Proof.
  intros p w2.
  apply (log_only_grows (RT := node) token_fresh [Post scenario_body]
           [Connect None; Resume 0; Serve 0] (node_world [Post scenario_body]) w2 "op1" p).
  - apply node_world_run.
  - apply node_world_app.
  - vm_compute. reflexivity.
Defined.

Lemma callback_writes_only_its_entry_witness :
  let w := node_world [Post scenario_body; Connect None] in
  (∃ body, Resume 0 = Post body ∧ "op1" = nanoid (minted w))
  ∨ (∃ n t, routine_of (Resume 0) = Some n ∧ tasks w !! n = Some t ∧ opId t = "op1").
Proof.
  intros w.
  apply (callback_writes_only_its_entry (RT := node) [Post scenario_body; Connect None]
           w (node_world ([Post scenario_body; Connect None] ++ [Resume 0])) (Resume 0) "op1").
  - apply node_world_run.
  - apply node_world_step.
  - vm_compute. discriminate.
Defined.

Lemma ended_stream_delivered_the_entry_witness :
  let w := node_world scenario_on_node in
  let s := Sub "op1" false true
               [Ping 0; Progress ["received"] false; Progress scenario_log true;
                Result (Some (scenario_invoice "op1"))] in
  ∃ p before,
    progress w !! target s = Some p
    ∧ done p = true
    ∧ Forall (fun m => is_result m = false) before
    ∧ written s = before ++ [Progress (events p) true; Result (result p)].
Proof.
  intros w s.
  apply (ended_stream_delivered_the_entry (RT := node) token_fresh scenario_on_node w 0 s).
  - apply node_world_run.
  - vm_compute. reflexivity.
  - reflexivity.
Defined.

Lemma page_shows_the_final_entry_witness :
  let w := node_world scenario_on_node in
  let s := Sub "op1" false true
               [Ping 0; Progress ["received"] false; Progress scenario_log true;
                Result (Some (scenario_invoice "op1"))] in
  ∃ p v,
    progress w !! target s = Some p
    ∧ result p = Some v
    ∧ watch (written s) submitted_page = Page (events p) v true.
Proof.
  intros w s.
  apply (page_shows_the_final_entry (RT := node) token_fresh scenario_on_node w 0 s).
  - apply node_world_run.
  - vm_compute. reflexivity.
  - reflexivity.
Defined.

Lemma closed_stream_is_never_written_witness :
  let opened := [Post scenario_body; Stream "op1" 0] in
  let w' := node_world ((opened ++ [Close 0]) ++ [Connect None; Resume 0; Tick 0]) in
  streams w' !! 0 = Some (Sub "op1" false false [Ping 0]).
Proof.
  intros opened w'.
  apply (closed_stream_is_never_written (RT := node) (node_world opened) w' 0
           (Sub "op1" true false [Ping 0]) [Connect None; Resume 0; Tick 0]).
  - vm_compute. reflexivity.
  - rewrite node_world_close. apply node_world_app.
Defined.

Lemma empty_create_reply_fails_after_logging_witness :
  let t := Task "op1" (MkInput 100 "USD" "a@b.com") AwaitCreate in
  let p := Entry false ["received"; "connecting-mcp"] None in
  let w := node_world connected_and_woken in
  step (Reply 0 (inr (ToolResult None))) w
  = Some (with_routine
            (<[opId t := Entry true (events p ++ ["invoice-created"])
                               (Some (JObj [("error", JStr "MCP error creating invoice")]))]>
               (progress w))
            (<[0 := Task (opId t) (data t) Settled]> (tasks w)) w).
Proof.
  intros t p w.
  apply (empty_create_reply_fails_after_logging (RT := node) w 0 t p (ToolResult None)).
  - vm_compute. reflexivity.
  - reflexivity.
  - vm_compute. reflexivity.
  - by left.
Defined.

Lemma get_reply_is_forwarded_witness :
  let t := Task "op1" (MkInput 100 "USD" "a@b.com") (AwaitGet (Some (JStr "op1"))) in
  let p := Entry false ["received"; "connecting-mcp"; "invoice-created"] None in
  let w := node_world (connected_and_woken ++ [Serve 0]) in
  let not_found := JObj [("error", JStr "NOT_FOUND")] in
  let type_error :=
    JObj [("error", JStr "Cannot read properties of undefined (reading 'text')")] in
  let finished (result : json) :=
    Some (with_routine
            (<[opId t := Entry true (events p ++ ["invoice-fetched"]) (Some result)]>
               (progress w))
            (<[0 := Task (opId t) (data t) Settled]> (tasks w)) w) in
  step (Reply 0 (inr (ToolResult (Some [Item "text" (Some (Stringified not_found))])))) w
  = finished not_found
  ∧ step (Reply 0 (inr (ToolResult (Some [])))) w = finished type_error.
Proof.
  intros t p w not_found type_error.
  apply (get_reply_is_forwarded (RT := node) w 0 t (Some (JStr "op1")) p "text" not_found []).
  - vm_compute. reflexivity.
  - reflexivity.
  - vm_compute. reflexivity.
Defined.


Lemma tool_calls_need_connection_witness :
  let w := node_world (connected_and_woken ++ [Serve 0]) in
  (∀ n t, tasks w !! n = Some t -> called (at_stage t) ->
          clientPromise w = Some Fulfilled)
  ∧ (∀ id, is_Some (invoices w !! id) -> clientPromise w = Some Fulfilled).
Proof.
  intros w.
  apply (tool_calls_need_connection (RT := node) (connected_and_woken ++ [Serve 0]) w).
  apply node_world_run.
Defined.

Lemma feed_never_goes_back_witness :
  let w := node_world scenario_on_node in
  ["received"] `prefix_of` scenario_log
  ∧ ∃ q, progress w !! "op1" = Some q ∧ scenario_log `prefix_of` events q.
Proof.
  intros w.
  apply (feed_never_goes_back (RT := node) token_fresh scenario_on_node w 0
           (Sub "op1" false true
                [Ping 0; Progress ["received"] false; Progress scenario_log true;
                 Result (Some (scenario_invoice "op1"))])
           1 2 ["received"] scenario_log false true).
  - apply node_world_run.
  - vm_compute. reflexivity.
  - lia.
  - reflexivity.
  - reflexivity.
Defined.
